(** * An ideal-memory player for the matching-pairs card game

    Shallow embedding of [ideal_player.py] (class [MemoryGameSimulator]) and
    the verification of its board generator, decision policy, turn executor
    and game loop.

    Python integers are [Z]; a position is the tuple [(row, col)]; the
    [revealed] dictionary is an insertion-ordered association list (its
    iteration order decides what [find_known_match] returns); the [matched]
    set is a [gset]; exceptions are the [Raise] results of a small error
    monad.  Printing under [verbose] changes no field and is left out. *)

From stdpp Require Import base gmap sets list.
From stdpp Require Import sorting.
From Equations Require Import Equations.
From Stdlib Require Import ZArith Lia.
Local Open Scope Z_scope.

(** ** Python results: a value or a raised exception *)

Inductive exn := IndexError.

Inductive result (A : Type) : Type :=
| Ok (a : A)
| Raise (e : exn).
Arguments Ok {A} a.
Arguments Raise {A} e.

#[global] Instance result_ret : MRet result := λ A a, Ok a.
#[global] Instance result_bind : MBind result := λ A B f m,
  match m with
  | Ok a => f a
  | Raise e => Raise e
  end.

#[global] Instance exn_eq_dec : EqDecision exn.
Proof. solve_decision. Defined.

(** ** Python containers *)

Abbreviation pos := (Z * Z)%type.

(** [l[i]] on a list: negative indices count from the end, anything out of
    range raises [IndexError]. *)
Definition getitem {A} (l : list A) (i : Z) : result A :=
  let n := Z.of_nat (length l) in
  let j := if decide (i < 0) then i + n else i in
  if decide (0 <= j < n) then
    match l !! Z.to_nat j with
    | Some x => Ok x
    | None => Raise IndexError
    end
  else Raise IndexError.

(** [d[k]] read as an option: [None] is [k not in d]. *)
Fixpoint dict_get (d : list (pos * Z)) (k : pos) : option Z :=
  match d with
  | [] => None
  | (k', v) :: d' => if decide (k' = k) then Some v else dict_get d' k
  end.

(** [d[k] = v]: an existing key keeps its place in the iteration order, a new
    key goes last. *)
Fixpoint dict_set (d : list (pos * Z)) (k : pos) (v : Z) : list (pos * Z) :=
  match d with
  | [] => [(k, v)]
  | (k', v') :: d' =>
      if decide (k' = k) then (k, v) :: d' else (k', v') :: dict_set d' k v
  end.

(** ** The simulator object *)

Record sim : Type := MkSim {
  rows : Z;
  cols : Z;
  total_cards : Z;
  total_pairs : Z;
  board : list (list Z);
  revealed : list (pos * Z);
  matched : gset pos;
  moves : Z;
  perfect_matches : Z;
  exploratory_moves : Z;
  verbose : bool
}.

(** [__init__] *)
Definition init (rows cols : Z) (verbose : bool) : sim :=
  {| rows := rows; cols := cols;
     total_cards := rows * cols;
     total_pairs := (rows * cols) `div` 2;
     board := []; revealed := []; matched := ∅;
     moves := 0; perfect_matches := 0; exploratory_moves := 0;
     verbose := verbose |}.

Definition set_board (s : sim) (b : list (list Z)) : sim :=
  MkSim (rows s) (cols s) (total_cards s) (total_pairs s) b (revealed s)
        (matched s) (moves s) (perfect_matches s) (exploratory_moves s)
        (verbose s).

Definition set_revealed (s : sim) (r : list (pos * Z)) : sim :=
  MkSim (rows s) (cols s) (total_cards s) (total_pairs s) (board s) r
        (matched s) (moves s) (perfect_matches s) (exploratory_moves s)
        (verbose s).

Definition set_matched (s : sim) (m : gset pos) : sim :=
  MkSim (rows s) (cols s) (total_cards s) (total_pairs s) (board s)
        (revealed s) m (moves s) (perfect_matches s) (exploratory_moves s)
        (verbose s).

Definition set_moves (s : sim) (n : Z) : sim :=
  MkSim (rows s) (cols s) (total_cards s) (total_pairs s) (board s)
        (revealed s) (matched s) n (perfect_matches s) (exploratory_moves s)
        (verbose s).

Definition set_perfect_matches (s : sim) (n : Z) : sim :=
  MkSim (rows s) (cols s) (total_cards s) (total_pairs s) (board s)
        (revealed s) (matched s) (moves s) n (exploratory_moves s)
        (verbose s).

Definition set_exploratory_moves (s : sim) (n : Z) : sim :=
  MkSim (rows s) (cols s) (total_cards s) (total_pairs s) (board s)
        (revealed s) (matched s) (moves s) (perfect_matches s) n
        (verbose s).

(** ** Board generation *)

(** The inner [for j in range(self.cols)] of [setup_board]: one
    [row.append(pairs[idx]); idx += 1] per element of the range. *)
Fixpoint fill_row (pairs : list Z) (js : list Z) (row : list Z) (idx : Z)
  : result (list Z * Z) :=
  match js with
  | [] => Ok (row, idx)
  | _ :: js' =>
      x ← getitem pairs idx;
      fill_row pairs js' (row ++ [x]) (idx + 1)
  end.

(** The outer [for i in range(self.rows)]. *)
Fixpoint fill_board (pairs : list Z) (ncols : Z) (rs : list Z)
    (b : list (list Z)) (idx : Z) : result (list (list Z) * Z) :=
  match rs with
  | [] => Ok (b, idx)
  | _ :: rs' =>
      '(row, idx') ← fill_row pairs (seqZ 0 ncols) [] idx;
      fill_board pairs ncols rs' (b ++ [row]) idx'
  end.

(** [symbols + symbols] before the shuffle. *)
Definition pair_sequence (npairs : Z) : list Z :=
  seqZ 0 npairs ++ seqZ 0 npairs.

(** [setup_board]; [shuffle] is what [random.shuffle] did to the list. *)
Definition setup_board (shuffle : list Z → list Z) (s : sim) : result sim :=
  let symbols := seqZ 0 (total_pairs s) in
  let pairs := shuffle (symbols ++ symbols) in
  '(b, _) ← fill_board pairs (cols s) (seqZ 0 (rows s)) [] 0;
  Ok (set_board s b).

(** The only thing assumed of [random.shuffle]: it permutes its argument. *)
Definition is_shuffle (shuffle : list Z → list Z) : Prop :=
  ∀ l, shuffle l ≡ₚ l.

(** ** Memory and the decision policy *)

Definition get_position (row col : Z) : pos := (row, col).

Definition is_matched (s : sim) (p : pos) : bool :=
  bool_decide (p ∈ matched s).

Definition get_symbol (s : sim) (p : pos) : result Z :=
  row ← getitem (board s) p.1;
  getitem row p.2.

Definition find_known_match (s : sim) (symbol : Z) : option pos :=
  let positions :=
    (filter (λ kv : pos * Z, kv.2 = symbol ∧ kv.1 ∉ matched s) (revealed s)).*1 in
  head positions.

(** Row-major enumeration of the grid, as the two nested [range] loops of
    [get_unmatched_positions] visit it. *)
Definition all_positions (nrows ncols : Z) : list pos :=
  i ← seqZ 0 nrows; j ← seqZ 0 ncols; [(i, j)].

Definition get_unmatched_positions (s : sim) : list pos :=
  filter (λ p, p ∉ matched s) (all_positions (rows s) (cols s)).

(** [make_move] *)
Definition make_move (s : sim) (pos1 pos2 : pos) (is_known_match : bool)
  : result sim :=
  symbol1 ← get_symbol s pos1;
  symbol2 ← get_symbol s pos2;
  let s := set_revealed s (dict_set (revealed s) pos1 symbol1) in
  let s := set_revealed s (dict_set (revealed s) pos2 symbol2) in
  if decide (symbol1 = symbol2) then
    let s := set_matched s (matched s ∪ {[pos1]}) in
    let s := set_matched s (matched s ∪ {[pos2]}) in
    if is_known_match then Ok (set_perfect_matches s (perfect_matches s + 1))
    else Ok s
  else
    let s := set_moves s (moves s + 1) in
    Ok (set_exploratory_moves s (exploratory_moves s + 1)).

(** The [for pos in unmatched] loop of [play_turn]: the pair it would hand to
    [make_move] with [is_known_match=True], or [None] when it falls through.
    A tuple is truthy, so [if match_pos and match_pos != pos] tests that
    [find_known_match] found something other than [pos]. *)
Fixpoint known_match_scan (s : sim) (unmatched : list pos)
  : option (pos * pos) :=
  match unmatched with
  | [] => None
  | p :: rest =>
      match dict_get (revealed s) p with
      | None => known_match_scan s rest
      | Some symbol =>
          match find_known_match s symbol with
          | Some match_pos =>
              if decide (match_pos ≠ p) then Some (p, match_pos)
              else known_match_scan s rest
          | None => known_match_scan s rest
          end
      end
  end.

(** The list built when no known match exists. *)
Definition unrevealed_of (s : sim) (unmatched : list pos) : list pos :=
  filter (λ p, p ∉ (revealed s).*1) unmatched.

(** [play_turn]: the new state and the returned flag. *)
Definition play_turn (s : sim) : result (sim * bool) :=
  if decide (Z.of_nat (size (matched s)) = total_cards s) then Ok (s, false)
  else
    let unmatched := get_unmatched_positions s in
    match known_match_scan s unmatched with
    | Some (p, match_pos) =>
        s' ← make_move s p match_pos true;
        Ok (s', true)
    | None =>
        match unrevealed_of s unmatched with
        | pos1 :: pos2 :: _ =>
            s' ← make_move s pos1 pos2 false;
            Ok (s', true)
        | [pos1] =>
            pos2 ← getitem (filter (λ p, p ∈ (revealed s).*1) unmatched) 0;
            s' ← make_move s pos1 pos2 false;
            Ok (s', true)
        | [] => Ok (s, false)
        end
    end.

(** ** The game loop *)

(** [while self.play_turn(): turn_count += 1; if turn_count > 1000: break],
    returning the state and [turn_count] at loop exit. *)
Equations? game_loop (s : sim) (turn_count : Z) : result (sim * Z)
  by wf (Z.to_nat (1001 - turn_count)) lt :=
game_loop s turn_count with play_turn s := {
  | Raise e => Raise e
  | Ok (s', false) => Ok (s', turn_count)
  | Ok (s', true) with decide (1000 < turn_count + 1) := {
      | left _ => Ok (s', turn_count + 1)
      | right _ => game_loop s' (turn_count + 1) } }.
Proof. lia. Qed.

(** [play_game]: the final state and the returned [self.moves]. *)
Definition play_game (shuffle : list Z → list Z) (s : sim) : result (sim * Z) :=
  s ← setup_board shuffle s;
  '(s, _) ← game_loop s 0;
  Ok (s, moves s).

(** The turn count of a whole game, next to its final state. *)
Definition play_game_turns (shuffle : list Z → list Z) (s : sim)
  : result (sim * Z) :=
  s ← setup_board shuffle s;
  game_loop s 0.

(** ** The batch runner *)

(** How [run_simulations] can end early: an exception of a game, or the
    division of [sum(results) / len(results)] by zero. *)
Inductive batch_exn :=
| GameRaised (e : exn)
| ZeroDivisionError.

(** The numbers the summary lines of [run_simulations] are printed from.  The
    average is kept as the two operands of its division. *)
Record summary : Type := MkSummary {
  results : list Z;
  num_simulations : Z;
  sum_results : Z;
  len_results : Z;
  min_results : Z;
  max_results : Z;
  pairs_shown : Z
}.

(** The [for i in range(num_games)] loop: a new simulator and one
    [play_game] per game; [shuffles i] is what [random.shuffle] does in game
    [i]. *)
Fixpoint simulate_games (shuffles : Z → list Z → list Z) (nrows ncols : Z)
    (vb : bool) (games : list Z) (res : list Z) : result (list Z) :=
  match games with
  | [] => Ok res
  | i :: games' =>
      '(_, m) ← play_game (shuffles i) (init nrows ncols vb);
      simulate_games shuffles nrows ncols vb games' (res ++ [m])
  end.

(** [run_simulations]: [min] and [max] are only reached with a non-empty
    list, after the division went through. *)
Definition run_simulations (shuffles : Z → list Z → list Z) (nrows ncols : Z)
    (num_games : Z) (vb : bool) : batch_exn + summary :=
  match simulate_games shuffles nrows ncols vb (seqZ 0 num_games) [] with
  | Raise e => inl (GameRaised e)
  | Ok [] => inl ZeroDivisionError
  | Ok (r :: rest) =>
      inr {| results := r :: rest;
             num_simulations := num_games;
             sum_results := foldl Z.add 0 (r :: rest);
             len_results := Z.of_nat (length (r :: rest));
             min_results := foldl Z.min r rest;
             max_results := foldl Z.max r rest;
             pairs_shown := (nrows * ncols) `div` 2 |}
  end.

(** The values of [board_sizes], in the order of the dictionary (keys '3x4',
    '4x4', '4x5', '5x6', '6x6'; the loop does not use them). *)
Definition board_sizes : list (Z * Z) :=
  [(4, 3); (4, 4); (5, 4); (6, 5); (6, 6)].

(** The loop of the [__main__] block with [VERBOSE = False]: 100000 games per
    board size, stopping at the first exception; [shuffles b] serves the
    games of the [b]-th board. *)
Fixpoint main_loop (shuffles : nat → Z → list Z → list Z) (b : nat)
    (sizes : list (Z * Z)) : batch_exn + list summary :=
  match sizes with
  | [] => inr []
  | (nrows, ncols) :: sizes' =>
      match run_simulations (shuffles b) nrows ncols 100000 false with
      | inl e => inl e
      | inr sm =>
          match main_loop shuffles (S b) sizes' with
          | inl e => inl e
          | inr sms => inr (sm :: sms)
          end
      end
  end.

Definition main (shuffles : nat → Z → list Z → list Z)
  : batch_exn + list summary :=
  main_loop shuffles 0 board_sizes.

(** * Specification vocabulary *)

(** ** Symbols on a board *)

(** Number of cells of a symbol list that hold [v]. *)
Definition count_of (v : Z) (l : list Z) : nat :=
  length (filter (λ x, x = v) l).

(** The board is the one [setup_board] builds for an even number of cells:
    the symbols read off the grid positions in row-major order are the rows
    concatenated, a permutation of the pair sequence. *)
Record board_ok (s : sim) : Prop := {
  bo_rows : 0 <= rows s;
  bo_cols : 0 <= cols s;
  bo_total : total_cards s = rows s * cols s;
  bo_even : Z.even (total_cards s) = true;
  bo_pairs : total_pairs s = total_cards s `div` 2;
  bo_symbols :
    Forall2 (λ p v, get_symbol s p = Ok v)
            (all_positions (rows s) (cols s)) (concat (board s));
  bo_perm : concat (board s) ≡ₚ pair_sequence (total_pairs s)
}.

(** ** The game invariant *)

(** What every state of a game satisfies: memory holds true symbols of grid
    positions, matched positions are remembered and come in whole pairs, and
    the revealed and the matched positions are even in number. *)
Record inv (s : sim) : Prop := {
  inv_board : board_ok s;
  inv_keys_nodup : NoDup (revealed s).*1;
  inv_keys_pos : ∀ p, p ∈ (revealed s).*1 → p ∈ all_positions (rows s) (cols s);
  inv_revealed_true : ∀ p v, dict_get (revealed s) p = Some v → get_symbol s p = Ok v;
  inv_matched_revealed : ∀ p, p ∈ matched s → p ∈ (revealed s).*1;
  inv_matched_pairs :
    ∀ p q, p ∈ all_positions (rows s) (cols s) →
           q ∈ all_positions (rows s) (cols s) →
           get_symbol s p = get_symbol s q → p ∈ matched s → q ∈ matched s;
  inv_matched_even : Nat.Even (size (matched s));
  inv_revealed_even : Nat.Even (length (revealed s));
  inv_moves : 0 <= moves s;
  inv_perfect : 0 <= perfect_matches s;
  inv_exploratory : exploratory_moves s = moves s
}.

(** ** Moves and turns *)

(** What [make_move] does to each field. *)
Record move_facts (s s' : sim) (p1 p2 : pos) (k : bool) (v1 v2 : Z) : Prop := {
  mf_sym1 : get_symbol s p1 = Ok v1;
  mf_sym2 : get_symbol s p2 = Ok v2;
  mf_rows : rows s' = rows s;
  mf_cols : cols s' = cols s;
  mf_total_cards : total_cards s' = total_cards s;
  mf_total_pairs : total_pairs s' = total_pairs s;
  mf_board : board s' = board s;
  mf_verbose : verbose s' = verbose s;
  mf_revealed : revealed s' = dict_set (dict_set (revealed s) p1 v1) p2 v2;
  mf_matched :
    matched s' = if decide (v1 = v2) then matched s ∪ {[p1]} ∪ {[p2]} else matched s;
  mf_moves : moves s' = if decide (v1 = v2) then moves s else moves s + 1;
  mf_exploratory :
    exploratory_moves s'
    = if decide (v1 = v2) then exploratory_moves s else exploratory_moves s + 1;
  mf_perfect :
    perfect_matches s'
    = if decide (v1 = v2)
      then (if k then perfect_matches s + 1 else perfect_matches s)
      else perfect_matches s
}.

(** Two distinct unmatched grid positions. *)
Definition legal (s : sim) (p1 p2 : pos) : Prop :=
  p1 ∈ all_positions (rows s) (cols s) ∧ p2 ∈ all_positions (rows s) (cols s)
  ∧ p1 ≠ p2 ∧ (p1 ∉ matched s) ∧ (p2 ∉ matched s).

(** The two kinds of turn. *)
Definition known_choice (s : sim) (p1 p2 : pos) : Prop :=
  known_match_scan s (get_unmatched_positions s) = Some (p1, p2).

Definition explore_choice (s : sim) (p1 p2 : pos) : Prop :=
  known_match_scan s (get_unmatched_positions s) = None
  ∧ ∃ rest, unrevealed_of s (get_unmatched_positions s) = p1 :: p2 :: rest.

(** A turn of [play_turn] that flips [p1] and [p2]: the call of [make_move]
    it makes and the branch that chose the pair. *)
Record turn_facts (s s' : sim) (p1 p2 : pos) (k : bool) (v1 v2 : Z) : Prop := {
  tf_move : make_move s p1 p2 k = Ok s';
  tf_fields : move_facts s s' p1 p2 k v1 v2;
  tf_legal : legal s p1 p2;
  tf_choice :
    if k then known_choice s p1 p2 ∧ v1 = v2
              ∧ p1 ∈ (revealed s).*1 ∧ p2 ∈ (revealed s).*1
    else explore_choice s p1 p2
         ∧ (p1 ∉ (revealed s).*1) ∧ (p2 ∉ (revealed s).*1)
}.

(** ** Games *)

(** Board sizes the game is meant for. *)
Definition valid_dims (nrows ncols : Z) : Prop :=
  0 < nrows ∧ 0 < ncols ∧ Z.even (nrows * ncols) = true.

(** [run k s s']: [k] calls of [play_turn], each returning [True], lead from
    [s] to [s']. *)
Inductive run : nat → sim → sim → Prop :=
| run_done s : run 0 s s
| run_turn k s s' s'' :
    play_turn s = Ok (s', true) → run k s' s'' → run (S k) s s''.

Definition reachable (s0 s : sim) : Prop := ∃ k, run k s0 s.

(** The state right after [setup_board] in a game on a valid board. *)
Definition fresh_game (shuffle : list Z → list Z) (nrows ncols : Z) (vb : bool)
    (s0 : sim) : Prop :=
  is_shuffle shuffle ∧ valid_dims nrows ncols
  ∧ setup_board shuffle (init nrows ncols vb) = Ok s0.

(** A state some game on a valid board passes through. *)
Definition game_state (s : sim) : Prop :=
  ∃ shuffle nrows ncols vb s0,
    fresh_game shuffle nrows ncols vb s0 ∧ reachable s0 s.

(** What is left to do: cards still to match plus cards still to see. *)
Definition remaining (s : sim) : nat :=
  ((length (all_positions (rows s) (cols s)) - size (matched s))
   + (length (all_positions (rows s) (cols s)) - length (revealed s)))%nat.

(** ** A small concrete game

    The 2x2 board left in generation order, [[0, 1], [0, 1]]: two wrong
    guesses reveal the four cards, two known matches clear them. *)

(** The shuffle that leaves the list as it is. *)
Definition keep_order (l : list Z) : list Z := l.

Definition demo_start : sim :=
  MkSim 2 2 4 2 [[0; 1]; [0; 1]] [] ∅ 0 0 0 false.

Definition demo_one_turn : sim :=
  MkSim 2 2 4 2 [[0; 1]; [0; 1]] [((0, 0), 0); ((0, 1), 1)] ∅ 1 0 1 false.

Definition demo_two_turns : sim :=
  MkSim 2 2 4 2 [[0; 1]; [0; 1]]
        [((0, 0), 0); ((0, 1), 1); ((1, 0), 0); ((1, 1), 1)] ∅ 2 0 2 false.

(** ** Order and bounds of positions *)

(** Row-major order of positions. *)
Definition row_major_lt (p q : pos) : Prop :=
  p.1 < q.1 ∨ (p.1 = q.1 ∧ p.2 < q.2).

(** Coordinates [get_symbol] accepts on a [rows] by [cols] board: Python
    indices, negative ones counting from the end. *)
Definition on_board (s : sim) (p : pos) : Prop :=
  (- rows s <= p.1 < rows s) ∧ (- cols s <= p.2 < cols s).

(** * Verification *)

(** ** The error monad *)

Lemma bind_Ok {A B} (m : result A) (f : A → result B) (b : B) :
  m ≫= f = Ok b → ∃ a, m = Ok a ∧ f a = Ok b.
Proof. destruct m as [a|e]; [eauto | discriminate]. Qed.

(** ** List indexing *)

Lemma getitem_lookup {A} (l : list A) (i : nat) (x : A) :
  l !! i = Some x → getitem l (Z.of_nat i) = Ok x.
Proof.
  intros Hl. pose proof (lookup_lt_Some _ _ _ Hl) as Hlt.
  unfold getitem. destruct (decide (Z.of_nat i < 0)) as [?|_]; [lia|].
  destruct (decide (0 <= Z.of_nat i < Z.of_nat (length l))) as [_|?]; [|lia].
  by rewrite Nat2Z.id, Hl.
Qed.

Lemma getitem_overflow {A} (l : list A) (i : Z) :
  Z.of_nat (length l) <= i → getitem l i = Raise IndexError.
Proof.
  intros Hi. unfold getitem.
  destruct (decide (i < 0)) as [?|_]; [lia|].
  destruct (decide (0 <= i < Z.of_nat (length l))) as [?|_]; [lia|done].
Qed.

(** ** The dictionary *)

Lemma dict_get_None d k : dict_get d k = None ↔ k ∉ d.*1.
Proof.
  induction d as [|[k' v] d IH]; simpl.
  - split; [intros _; apply not_elem_of_nil | done].
  - rewrite not_elem_of_cons. destruct (decide (k' = k)) as [->|Hne].
    + split; [done | intros [? _]; done].
    + rewrite IH. split; [intros ?; split; [congruence | done] | tauto].
Qed.

Lemma dict_get_Some_elem d k v : dict_get d k = Some v → (k, v) ∈ d.
Proof.
  induction d as [|[k' v'] d IH]; simpl; [done|].
  destruct (decide (k' = k)) as [->|Hne].
  - intros [= ->]. apply list_elem_of_here.
  - intros H. apply list_elem_of_further. auto.
Qed.

Lemma dict_get_elem d k v : NoDup d.*1 → (k, v) ∈ d → dict_get d k = Some v.
Proof.
  induction d as [|[k' v'] d IH]; simpl; intros Hnd Hin.
  - by apply elem_of_nil in Hin.
  - apply NoDup_cons in Hnd as [Hk' Hnd].
    apply elem_of_cons in Hin as [[= <- <-]|Hin].
    + by rewrite decide_True.
    + destruct (decide (k' = k)) as [->|Hne]; [|auto].
      exfalso. apply Hk'. apply list_elem_of_fmap. by exists (k, v).
Qed.

Lemma dict_get_is_key d k : k ∈ d.*1 → ∃ v, dict_get d k = Some v.
Proof.
  intros Hk. destruct (dict_get d k) as [v|] eqn:E; [eauto|].
  by apply dict_get_None in E.
Qed.

Lemma dict_set_same d k v : dict_get d k = Some v → dict_set d k v = d.
Proof.
  induction d as [|[k' v'] d IH]; simpl; [done|].
  destruct (decide (k' = k)) as [->|Hne].
  - by intros [= ->].
  - intros H. by rewrite IH.
Qed.

Lemma dict_set_fresh d k v : k ∉ d.*1 → dict_set d k v = d ++ [(k, v)].
Proof.
  induction d as [|[k' v'] d IH]; simpl; [done|].
  rewrite not_elem_of_cons. intros [Hne Hk].
  rewrite decide_False by congruence. by rewrite IH.
Qed.

Lemma dict_get_set d k v k' :
  dict_get (dict_set d k v) k' = if decide (k = k') then Some v else dict_get d k'.
Proof.
  induction d as [|[k0 v0] d IH]; simpl.
  - destruct (decide (k = k')); done.
  - destruct (decide (k0 = k)) as [->|Hne]; simpl.
    + destruct (decide (k = k')); done.
    + destruct (decide (k0 = k')) as [->|Hne'].
      * by rewrite decide_False by congruence.
      * apply IH.
Qed.

Lemma dict_set_keys d k v k' : k' ∈ (dict_set d k v).*1 ↔ k' = k ∨ k' ∈ d.*1.
Proof.
  destruct (decide (k' ∈ (dict_set d k v).*1)) as [Hin|Hnin].
  - split; [|done]. intros _.
    apply dict_get_is_key in Hin as [w Hw]. rewrite dict_get_set in Hw.
    destruct (decide (k = k')); [by left|right].
    destruct (decide (k' ∈ d.*1)) as [|Hn]; [done|].
    apply dict_get_None in Hn. congruence.
  - split; [done|]. intros H. exfalso.
    apply dict_get_None in Hnin. rewrite dict_get_set in Hnin.
    destruct (decide (k = k')); [done|]. destruct H as [->|H]; [done|].
    by apply dict_get_None in Hnin.
Qed.

Lemma dict_set_NoDup d k v : NoDup d.*1 → NoDup (dict_set d k v).*1.
Proof.
  intros Hnd. destruct (dict_get d k) as [w|] eqn:E.
  - induction d as [|[k0 v0] d IH]; simpl in *; [done|].
    destruct (decide (k0 = k)) as [->|Hne]; simpl; [done|].
    apply NoDup_cons in Hnd as [Hk0 Hnd]. apply NoDup_cons. split; [|auto].
    rewrite dict_set_keys. intros [?|?]; done.
  - apply dict_get_None in E. rewrite dict_set_fresh by done.
    rewrite fmap_app. simpl. apply NoDup_app. split_and!; [done| |apply NoDup_singleton].
    intros x Hx Hx'. apply list_elem_of_singleton in Hx'. by subst.
Qed.

(** ** Board generation *)

Lemma take_add {A} (a b : nat) (l : list A) :
  take (a + b) l = take a l ++ take b (drop a l).
Proof.
  revert l. induction a as [|a IH]; intros [|x l]; simpl; try done.
  - by rewrite take_nil.
  - by rewrite IH.
Qed.

Lemma fill_row_ok pairs js row (idx : nat) :
  (idx + length js ≤ length pairs)%nat →
  fill_row pairs js row (Z.of_nat idx)
  = Ok (row ++ take (length js) (drop idx pairs), Z.of_nat (idx + length js)).
Proof.
  revert row idx. induction js as [|j js IH]; intros row idx Hlen; simpl in *.
  - rewrite app_nil_r. do 2 f_equal. lia.
  - destruct (lookup_lt_is_Some_2 pairs idx) as [x Hx]; [lia|].
    rewrite (getitem_lookup _ _ _ Hx). simpl.
    replace (Z.of_nat idx + 1) with (Z.of_nat (S idx)) by lia.
    rewrite IH by lia. rewrite (drop_S _ _ _ Hx). simpl.
    rewrite <- app_assoc. simpl. do 2 f_equal. lia.
Qed.

Lemma fill_row_overflow pairs js row (idx : nat) :
  (idx ≤ length pairs)%nat →
  (length pairs < idx + length js)%nat →
  fill_row pairs js row (Z.of_nat idx) = Raise IndexError.
Proof.
  revert row idx. induction js as [|j js IH]; intros row idx Hle Hlen; simpl in *.
  - lia.
  - destruct (decide (idx < length pairs)%nat) as [Hlt|Hge].
    + destruct (lookup_lt_is_Some_2 pairs idx) as [x Hx]; [lia|].
      rewrite (getitem_lookup _ _ _ Hx). simpl.
      replace (Z.of_nat idx + 1) with (Z.of_nat (S idx)) by lia.
      apply IH; lia.
    + rewrite getitem_overflow by lia. done.
Qed.

Lemma fill_board_ok pairs ncols rs b (idx : nat) :
  (idx + length rs * Z.to_nat ncols ≤ length pairs)%nat →
  ∃ b', fill_board pairs ncols rs b (Z.of_nat idx)
        = Ok (b ++ b', Z.of_nat (idx + length rs * Z.to_nat ncols))
      ∧ length b' = length rs
      ∧ Forall (λ r, length r = Z.to_nat ncols) b'
      ∧ concat b' = take (length rs * Z.to_nat ncols) (drop idx pairs).
Proof.
  revert b idx. induction rs as [|r rs IH]; intros b idx Hlen; simpl in *.
  - exists []. rewrite app_nil_r. split_and!; try done. do 2 f_equal. lia.
  - rewrite fill_row_ok by (rewrite length_seqZ; lia). simpl.
    rewrite length_seqZ.
    set (row := take (Z.to_nat ncols) (drop idx pairs)).
    destruct (IH (b ++ [row]) (idx + Z.to_nat ncols)%nat) as (b' & Hb' & Hl & Hf & Hc);
      [lia|].
    exists (row :: b'). rewrite Hb'. split_and!.
    + rewrite <- app_assoc. simpl. do 2 f_equal. lia.
    + simpl. by rewrite Hl.
    + constructor; [|done]. unfold row. rewrite length_take, length_drop. lia.
    + simpl. rewrite Hc, take_add. unfold row. by rewrite drop_drop.
Qed.

Lemma fill_board_overflow pairs ncols rs b (idx : nat) :
  (idx ≤ length pairs)%nat →
  (length pairs < idx + length rs * Z.to_nat ncols)%nat →
  fill_board pairs ncols rs b (Z.of_nat idx) = Raise IndexError.
Proof.
  revert b idx. induction rs as [|r rs IH]; intros b idx Hle Hlen; simpl in *.
  - lia.
  - destruct (decide (idx + Z.to_nat ncols ≤ length pairs)%nat) as [Hfit|Hover].
    + rewrite fill_row_ok by (rewrite length_seqZ; lia). simpl.
      rewrite length_seqZ. apply IH; lia.
    + rewrite fill_row_overflow by (rewrite ?length_seqZ; lia). done.
Qed.

Lemma length_pair_sequence n : length (pair_sequence n) = (2 * Z.to_nat n)%nat.
Proof. unfold pair_sequence. rewrite length_app, length_seqZ. lia. Qed.

(** Symbols of a rectangular grid, read position by position in row-major
    order, are the concatenation of its rows. *)
Lemma row_symbols (r : list Z) (i : Z) :
  Forall2 (λ (p : pos) v, p.1 = i ∧ getitem r p.2 = Ok v)
          (seqZ 0 (Z.of_nat (length r)) ≫= λ j, [(i, j)]) r.
Proof.
  apply Forall2_same_length_lookup_2.
  - induction r as [|x r IH] using rev_ind; [done|].
    rewrite length_app. simpl.
    replace (Z.of_nat (length r + 1)) with (Z.of_nat (S (length r))) by lia.
    rewrite seqZ_S, bind_app, !length_app. simpl. lia.
  - intros k p v Hp Hv.
    assert (p = (i, Z.of_nat k)) as ->; [|split; [done|by apply getitem_lookup]].
    clear v Hv. revert k Hp.
    induction r as [|x r IH] using rev_ind; intros k Hp; [done|].
    rewrite length_app in Hp. simpl in Hp.
    replace (Z.of_nat (length r + 1)) with (Z.of_nat (S (length r))) in Hp by lia.
    rewrite seqZ_S, bind_app in Hp. simpl in Hp.
    apply lookup_app_Some in Hp as [Hp|[Hge Hp]]; [by apply IH|].
    assert (length (seqZ 0 (Z.of_nat (length r)) ≫= λ j, [(i, j)]) = length r) as Hl.
    { clear. induction r as [|x r IH] using rev_ind; [done|].
      rewrite length_app. simpl.
      replace (Z.of_nat (length r + 1)) with (Z.of_nat (S (length r))) by lia.
      rewrite seqZ_S, bind_app, length_app. simpl. lia. }
    rewrite Hl in Hp, Hge.
    destruct (k - length r)%nat as [|m] eqn:E; simpl in Hp; [|done].
    injection Hp as <-. f_equal. lia.
Qed.

Lemma grid_symbols (b0 b : list (list Z)) (c : nat) :
  Forall (λ r, length r = c) b →
  Forall2 (λ (p : pos) v, (row ← getitem (b0 ++ b) p.1; getitem row p.2) = Ok v)
          (seqZ (Z.of_nat (length b0)) (Z.of_nat (length b))
             ≫= λ i, seqZ 0 (Z.of_nat c) ≫= λ j, [(i, j)])
          (concat b).
Proof.
  intros Hb. revert b0. induction Hb as [|r b Hr Hb IH]; intros b0.
  - constructor.
  - rewrite (seqZ_cons (Z.of_nat (length b0))) by (simpl; lia).
    rewrite bind_cons. simpl concat.
    apply Forall2_app.
    + subst c. eapply Forall2_impl; [apply row_symbols|].
      intros p v [-> Hv]. simpl.
      rewrite (getitem_lookup _ _ r); [done|]. by apply list_lookup_middle.
    + specialize (IH (b0 ++ [r])). rewrite <- app_assoc in IH. simpl in IH.
      rewrite length_app in IH. simpl in IH.
      replace (Z.succ (Z.of_nat (length b0))) with (Z.of_nat (length b0 + 1)) by lia.
      replace (Z.pred (Z.of_nat (length (r :: b)))) with (Z.of_nat (length b))
        by (simpl; lia).
      exact IH.
Qed.

Lemma board_symbols (s : sim) :
  0 <= rows s → 0 <= cols s →
  length (board s) = Z.to_nat (rows s) →
  Forall (λ r, length r = Z.to_nat (cols s)) (board s) →
  Forall2 (λ p v, get_symbol s p = Ok v)
          (all_positions (rows s) (cols s)) (concat (board s)).
Proof.
  intros Hr Hc Hlen Hrows.
  pose proof (grid_symbols [] (board s) _ Hrows) as H.
  simpl in H. rewrite Hlen, !Z2Nat.id in H by done. exact H.
Qed.

Lemma setup_board_ok shuffle nrows ncols vb :
  is_shuffle shuffle → 0 <= nrows → 0 <= ncols →
  Z.even (nrows * ncols) = true →
  ∃ b, setup_board shuffle (init nrows ncols vb)
       = Ok (set_board (init nrows ncols vb) b)
     ∧ length b = Z.to_nat nrows
     ∧ Forall (λ r, length r = Z.to_nat ncols) b
     ∧ concat b = shuffle (pair_sequence ((nrows * ncols) `div` 2)).
Proof.
  intros Hsh Hr Hc Hev. unfold setup_board. simpl.
  fold (pair_sequence ((nrows * ncols) `div` 2)).
  set (pairs := shuffle (pair_sequence ((nrows * ncols) `div` 2))).
  assert (length pairs = (Z.to_nat nrows * Z.to_nat ncols)%nat) as Hlen.
  { unfold pairs. rewrite (Permutation_length (Hsh _)), length_pair_sequence.
    apply Z.even_spec in Hev as [k Hk]. rewrite Hk.
    rewrite (Z.mul_comm 2 k), Z.div_mul by lia. nia. }
  destruct (fill_board_ok pairs ncols (seqZ 0 nrows) [] 0) as (b & Hb & Hl & Hf & Hcat).
  { rewrite length_seqZ. simpl. lia. }
  change (Z.of_nat 0) with 0 in Hb. rewrite Hb. simpl.
  exists b. rewrite length_seqZ in Hl, Hcat. split_and!; try done.
  rewrite Hcat, drop_0, <- Hlen. apply firstn_all.
Qed.

Lemma setup_board_odd shuffle nrows ncols vb :
  is_shuffle shuffle → 0 <= nrows → 0 <= ncols →
  Z.odd (nrows * ncols) = true →
  setup_board shuffle (init nrows ncols vb) = Raise IndexError.
Proof.
  intros Hsh Hr Hc Hodd. unfold setup_board. simpl.
  fold (pair_sequence ((nrows * ncols) `div` 2)).
  set (pairs := shuffle (pair_sequence ((nrows * ncols) `div` 2))).
  assert (S (length pairs) = (Z.to_nat nrows * Z.to_nat ncols)%nat) as Hlen.
  { unfold pairs. rewrite (Permutation_length (Hsh _)), length_pair_sequence.
    apply Z.odd_spec in Hodd as [k Hk]. rewrite Hk.
    replace (2 * k + 1) with (1 + k * 2) by lia.
    rewrite Z.div_add by lia. change (1 `div` 2) with 0. nia. }
  pose proof (fill_board_overflow pairs ncols (seqZ 0 nrows) [] 0) as H.
  change (Z.of_nat 0) with 0 in H. rewrite H; [done|lia|].
  rewrite length_seqZ. simpl. lia.
Qed.

(** ** Counting occurrences of a symbol *)

Lemma count_of_cons v x l :
  count_of v (x :: l) = ((if decide (x = v) then 1 else 0) + count_of v l)%nat.
Proof.
  unfold count_of. rewrite filter_cons. by destruct (decide (x = v)).
Qed.

Lemma count_of_app v l1 l2 :
  count_of v (l1 ++ l2) = (count_of v l1 + count_of v l2)%nat.
Proof. unfold count_of. by rewrite filter_app, length_app. Qed.

Lemma count_of_perm v l1 l2 : l1 ≡ₚ l2 → count_of v l1 = count_of v l2.
Proof. intros H. unfold count_of. by rewrite H. Qed.

Lemma count_of_notin v l : v ∉ l → count_of v l = 0%nat.
Proof.
  induction l as [|x l IH]; [done|]. rewrite not_elem_of_cons, count_of_cons.
  intros [Hne Hl]. rewrite decide_False by congruence. by rewrite IH.
Qed.

Lemma count_of_elem v l : v ∈ l → (1 ≤ count_of v l)%nat.
Proof.
  induction l as [|x l IH]; [by intros ?%elem_of_nil|].
  rewrite elem_of_cons, count_of_cons. intros [->|Hl].
  - rewrite decide_True by done. lia.
  - specialize (IH Hl). lia.
Qed.

Lemma count_of_pos v l : (1 ≤ count_of v l)%nat → v ∈ l.
Proof.
  intros H. destruct (decide (v ∈ l)) as [|Hn]; [done|].
  rewrite count_of_notin in H by done. lia.
Qed.

Lemma count_of_NoDup v l : NoDup l → v ∈ l → count_of v l = 1%nat.
Proof.
  induction 1 as [|x l Hx Hnd IH]; [by intros ?%elem_of_nil|].
  rewrite elem_of_cons, count_of_cons. intros [->|Hl].
  - rewrite decide_True by done. by rewrite count_of_notin.
  - rewrite decide_False by (intros ->; done). by rewrite IH.
Qed.

Lemma count_of_pair_sequence v n :
  count_of v (pair_sequence n) = if decide (0 <= v < n) then 2%nat else 0%nat.
Proof.
  unfold pair_sequence. rewrite count_of_app.
  destruct (decide (0 <= v < n)) as [Hin|Hout].
  - rewrite count_of_NoDup; [done|apply NoDup_seqZ|]. apply elem_of_seqZ. lia.
  - rewrite count_of_notin; [done|]. rewrite elem_of_seqZ. lia.
Qed.

Lemma count_of_lookup v l (a : nat) :
  l !! a = Some v →
  count_of v l = (count_of v (take a l) + 1 + count_of v (drop (S a) l))%nat.
Proof.
  intros Ha. rewrite <- (take_drop_middle l a v Ha) at 1.
  rewrite count_of_app, count_of_cons, decide_True by done. lia.
Qed.

(** Two occurrences in all: every occurrence has a partner elsewhere. *)
Lemma count_two_partner v l (a : nat) :
  count_of v l = 2%nat → l !! a = Some v → ∃ b, b ≠ a ∧ l !! b = Some v.
Proof.
  intros Hc Ha. rewrite (count_of_lookup v l a Ha) in Hc.
  destruct (decide (1 ≤ count_of v (take a l))%nat) as [H1|H1].
  - apply count_of_pos, list_elem_of_lookup in H1 as [b Hb].
    pose proof (lookup_lt_Some _ _ _ Hb) as Hlt. rewrite length_take in Hlt.
    exists b. split; [lia|]. rewrite lookup_take_lt in Hb by lia. done.
  - assert (1 ≤ count_of v (drop (S a) l))%nat as H2 by lia.
    apply count_of_pos, list_elem_of_lookup in H2 as [b Hb].
    rewrite lookup_drop in Hb. exists (S a + b)%nat. split; [lia|done].
Qed.

Lemma count_ge_two v l (a b : nat) :
  (a < b)%nat → l !! a = Some v → l !! b = Some v → (2 ≤ count_of v l)%nat.
Proof.
  intros Hab Ha Hb. rewrite (count_of_lookup v l a Ha).
  assert (v ∈ drop (S a) l) as Hin.
  { apply list_elem_of_lookup. exists (b - S a)%nat. rewrite lookup_drop.
    by replace (S a + (b - S a))%nat with b by lia. }
  apply count_of_elem in Hin. lia.
Qed.

Lemma count_ge_three v l (a b c : nat) :
  (a < b)%nat → (b < c)%nat →
  l !! a = Some v → l !! b = Some v → l !! c = Some v →
  (3 ≤ count_of v l)%nat.
Proof.
  intros Hab Hbc Ha Hb Hc. rewrite (count_of_lookup v l a Ha).
  assert (2 ≤ count_of v (drop (S a) l))%nat; [|lia].
  apply (count_ge_two v _ (b - S a) (c - S a)); [lia| |]; rewrite lookup_drop.
  - by replace (S a + (b - S a))%nat with b by lia.
  - by replace (S a + (c - S a))%nat with c by lia.
Qed.

(** At most two occurrences: three indices holding the symbol cannot be
    pairwise distinct. *)
Lemma count_two_at_most v l (a b c : nat) :
  (count_of v l ≤ 2)%nat →
  l !! a = Some v → l !! b = Some v → l !! c = Some v →
  a = b ∨ b = c ∨ a = c.
Proof.
  intros Hle Ha Hb Hc.
  destruct (decide (a = b)) as [|Hab]; [by left|].
  destruct (decide (b = c)) as [|Hbc]; [by right; left|].
  destruct (decide (a = c)) as [|Hac]; [by right; right|].
  exfalso.
  assert ((a < b < c) ∨ (a < c < b) ∨ (b < a < c) ∨ (b < c < a)
          ∨ (c < a < b) ∨ (c < b < a))%nat as Hord by lia.
  destruct Hord as [[]|[[]|[[]|[[]|[[]|[]]]]]].
  - pose proof (count_ge_three v l a b c ltac:(lia) ltac:(lia) Ha Hb Hc). lia.
  - pose proof (count_ge_three v l a c b ltac:(lia) ltac:(lia) Ha Hc Hb). lia.
  - pose proof (count_ge_three v l b a c ltac:(lia) ltac:(lia) Hb Ha Hc). lia.
  - pose proof (count_ge_three v l b c a ltac:(lia) ltac:(lia) Hb Hc Ha). lia.
  - pose proof (count_ge_three v l c a b ltac:(lia) ltac:(lia) Hc Ha Hb). lia.
  - pose proof (count_ge_three v l c b a ltac:(lia) ltac:(lia) Hc Hb Ha). lia.
Qed.

(** ** The grid positions *)

Lemma elem_of_all_positions nrows ncols (p : pos) :
  p ∈ all_positions nrows ncols ↔ (0 <= p.1 < nrows) ∧ (0 <= p.2 < ncols).
Proof.
  unfold all_positions. rewrite list_elem_of_bind. split.
  - intros (i & Hp & Hi). apply list_elem_of_bind in Hp as (j & Hp & Hj).
    apply list_elem_of_singleton in Hp as ->. simpl.
    apply elem_of_seqZ in Hi, Hj. lia.
  - intros [Hi Hj]. exists p.1. split; [|apply elem_of_seqZ; lia].
    apply list_elem_of_bind. exists p.2. split; [|apply elem_of_seqZ; lia].
    destruct p. apply list_elem_of_singleton. done.
Qed.

Lemma NoDup_all_positions nrows ncols : NoDup (all_positions nrows ncols).
Proof.
  unfold all_positions. apply NoDup_bind; [| |apply NoDup_seqZ].
  - intros i1 i2 p _ _ H1 H2.
    apply list_elem_of_bind in H1 as (j1 & H1 & _).
    apply list_elem_of_bind in H2 as (j2 & H2 & _).
    apply list_elem_of_singleton in H1, H2. congruence.
  - intros i _. apply NoDup_bind; [| |apply NoDup_seqZ].
    + intros j1 j2 p _ _ H1 H2. apply list_elem_of_singleton in H1, H2. congruence.
    + intros j _. apply NoDup_singleton.
Qed.

(** ** A well-formed board *)

Section board_facts.
Variable s : sim.
Hypothesis Hboard : board_ok s.

Let P := all_positions (rows s) (cols s).

Lemma positions_length : Z.of_nat (length P) = total_cards s.
Proof.
  unfold P. rewrite (Forall2_length _ _ _ (bo_symbols s Hboard)).
  rewrite (Permutation_length (bo_perm s Hboard)), length_pair_sequence.
  rewrite (bo_pairs s Hboard).
  pose proof (bo_even s Hboard) as Hev. apply Z.even_spec in Hev as [k Hk].
  pose proof (bo_total s Hboard). pose proof (bo_rows s Hboard).
  pose proof (bo_cols s Hboard).
  rewrite Hk, (Z.mul_comm 2 k), Z.div_mul by lia. nia.
Qed.

Lemma symbol_defined p : p ∈ P → ∃ v, get_symbol s p = Ok v.
Proof.
  intros [a Ha]%list_elem_of_lookup.
  destruct (Forall2_lookup_l _ _ _ _ _ (bo_symbols s Hboard) Ha) as (v & _ & Hv).
  eauto.
Qed.

Lemma symbol_count v :
  v ∈ concat (board s) → count_of v (concat (board s)) = 2%nat.
Proof.
  intros Hin. apply count_of_elem in Hin.
  rewrite (count_of_perm _ _ _ (bo_perm s Hboard)), count_of_pair_sequence in *.
  by destruct (decide (0 <= v < total_pairs s)); [|lia].
Qed.

Lemma partner p :
  p ∈ P → ∃ q, q ∈ P ∧ q ≠ p ∧ get_symbol s q = get_symbol s p.
Proof.
  intros [a Ha]%list_elem_of_lookup.
  destruct (Forall2_lookup_l _ _ _ _ _ (bo_symbols s Hboard) Ha) as (v & Hva & Hv).
  destruct (count_two_partner v (concat (board s)) a) as (b & Hne & Hvb); [|done|].
  { apply symbol_count. apply list_elem_of_lookup. eauto. }
  destruct (Forall2_lookup_r _ _ _ _ _ (bo_symbols s Hboard) Hvb) as (q & Hq & Hqv).
  exists q. split_and!.
  - apply list_elem_of_lookup. eauto.
  - intros ->. apply Hne.
    eapply NoDup_lookup; [apply NoDup_all_positions|exact Hq|exact Ha].
  - congruence.
Qed.

Lemma at_most_two p q r :
  p ∈ P → q ∈ P → r ∈ P →
  get_symbol s p = get_symbol s q → get_symbol s q = get_symbol s r →
  p = q ∨ q = r ∨ p = r.
Proof.
  intros [a Ha]%list_elem_of_lookup [b Hb]%list_elem_of_lookup
         [c Hc]%list_elem_of_lookup Hpq Hqr.
  destruct (Forall2_lookup_l _ _ _ _ _ (bo_symbols s Hboard) Ha) as (v & Hva & Hv).
  destruct (Forall2_lookup_l _ _ _ _ _ (bo_symbols s Hboard) Hb) as (w & Hvb & Hw).
  destruct (Forall2_lookup_l _ _ _ _ _ (bo_symbols s Hboard) Hc) as (u & Hvc & Hu).
  assert (w = v) as -> by congruence. assert (u = v) as -> by congruence.
  destruct (count_two_at_most v (concat (board s)) a b c) as [-> | [-> | ->]];
    try done.
  - rewrite symbol_count; [lia|]. apply list_elem_of_lookup. eauto.
  - left. congruence.
  - right. left. congruence.
  - right. right. congruence.
Qed.
End board_facts.

(** ** The game invariant *)

Lemma make_move_fields s p1 p2 k v1 v2 :
  get_symbol s p1 = Ok v1 → get_symbol s p2 = Ok v2 →
  ∃ s', make_move s p1 p2 k = Ok s' ∧ move_facts s s' p1 p2 k v1 v2.
Proof.
  intros H1 H2. unfold make_move. rewrite H1. simpl. rewrite H2. simpl.
  destruct (decide (v1 = v2)) as [Heq|Hne]; [destruct k|];
    (eexists; split; [reflexivity|]); constructor; simpl;
    rewrite ?decide_True, ?decide_False by done; done.
Qed.

Lemma make_move_Ok s p1 p2 k s' :
  make_move s p1 p2 k = Ok s' →
  ∃ v1 v2, get_symbol s p1 = Ok v1 ∧ get_symbol s p2 = Ok v2.
Proof.
  unfold make_move. intros H.
  apply bind_Ok in H as (v1 & H1 & H). apply bind_Ok in H as (v2 & H2 & H).
  eauto.
Qed.

(** [get_symbol] reads the board only. *)
Lemma get_symbol_board s s' p : board s' = board s → get_symbol s' p = get_symbol s p.
Proof. unfold get_symbol. by intros ->. Qed.

Lemma make_move_facts s p1 p2 k s' :
  make_move s p1 p2 k = Ok s' → ∃ v1 v2, move_facts s s' p1 p2 k v1 v2.
Proof.
  intros H. destruct (make_move_Ok _ _ _ _ _ H) as (v1 & v2 & H1 & H2).
  destruct (make_move_fields s p1 p2 k v1 v2 H1 H2) as (s'' & Hs'' & Hf).
  exists v1, v2. congruence.
Qed.

Lemma board_ok_transfer s s' :
  rows s' = rows s → cols s' = cols s → total_cards s' = total_cards s →
  total_pairs s' = total_pairs s → board s' = board s →
  board_ok s → board_ok s'.
Proof.
  intros Hr Hc Ht Hp Hb [].
  constructor; rewrite ?Hr, ?Hc, ?Ht, ?Hp, ?Hb; try done.
  eapply Forall2_impl; [eassumption|]. intros p v <-. by apply get_symbol_board.
Qed.

(** ** A legal move preserves the invariant

    Both moves [play_turn] makes flip two distinct unmatched grid positions
    that are either both in memory (a known match) or both unseen. *)

Section legal_move.
Variables (s s' : sim) (p1 p2 : pos) (k : bool) (v1 v2 : Z).
Hypothesis Hinv : inv s.
Hypothesis Hmf : move_facts s s' p1 p2 k v1 v2.
Hypothesis Hp1 : p1 ∈ all_positions (rows s) (cols s).
Hypothesis Hp2 : p2 ∈ all_positions (rows s) (cols s).
Hypothesis Hne : p1 ≠ p2.
Hypothesis Hm1 : p1 ∉ matched s.
Hypothesis Hm2 : p2 ∉ matched s.
Hypothesis Hkeys : p1 ∈ (revealed s).*1 ↔ p2 ∈ (revealed s).*1.

Lemma move_revealed_cases :
  (p1 ∈ (revealed s).*1 ∧ p2 ∈ (revealed s).*1 ∧ revealed s' = revealed s)
  ∨ ((p1 ∉ (revealed s).*1) ∧ (p2 ∉ (revealed s).*1)
     ∧ revealed s' = revealed s ++ [(p1, v1); (p2, v2)]).
Proof.
  rewrite (mf_revealed _ _ _ _ _ _ _ Hmf).
  destruct (decide (p1 ∈ (revealed s).*1)) as [Hin1|Hout1].
  - left. assert (p2 ∈ (revealed s).*1) as Hin2 by tauto. split_and!; try done.
    destruct (dict_get_is_key _ _ Hin1) as [w1 Hw1].
    destruct (dict_get_is_key _ _ Hin2) as [w2 Hw2].
    pose proof (inv_revealed_true s Hinv _ _ Hw1) as E1.
    pose proof (inv_revealed_true s Hinv _ _ Hw2) as E2.
    rewrite (mf_sym1 _ _ _ _ _ _ _ Hmf) in E1.
    rewrite (mf_sym2 _ _ _ _ _ _ _ Hmf) in E2.
    injection E1 as ->. injection E2 as ->.
    by rewrite (dict_set_same _ _ _ Hw1), (dict_set_same _ _ _ Hw2).
  - right. assert (p2 ∉ (revealed s).*1) as Hout2 by tauto. split_and!; try done.
    rewrite (dict_set_fresh _ p1) by done. rewrite dict_set_fresh.
    + by rewrite <- app_assoc.
    + rewrite fmap_app, elem_of_app. simpl. rewrite list_elem_of_singleton.
      intros [?|?]; [done|]. by apply Hne.
Qed.

Lemma move_length_revealed :
  length (revealed s')
  = (length (revealed s) + if decide (p1 ∈ (revealed s).*1) then 0 else 2)%nat.
Proof.
  destruct move_revealed_cases as [(H1 & _ & ->)|(H1 & _ & ->)].
  - rewrite decide_True by done. lia.
  - rewrite decide_False by done. rewrite length_app. simpl. lia.
Qed.

Lemma move_size_matched :
  size (matched s')
  = (size (matched s) + if decide (v1 = v2) then 2 else 0)%nat.
Proof.
  rewrite (mf_matched _ _ _ _ _ _ _ Hmf).
  destruct (decide (v1 = v2)) as [_|_]; [|lia].
  rewrite !size_union, !size_singleton; [lia| |].
  - by apply disjoint_singleton_r.
  - apply disjoint_singleton_r. rewrite elem_of_union, elem_of_singleton.
    intros [?|?]; [done|]. by apply Hne.
Qed.

Lemma move_matched_subseteq : matched s ⊆ matched s'.
Proof.
  rewrite (mf_matched _ _ _ _ _ _ _ Hmf).
  destruct (decide (v1 = v2)); [|done].
  intros x Hx. rewrite !elem_of_union. auto.
Qed.

Lemma move_revealed_kept p v :
  dict_get (revealed s) p = Some v → dict_get (revealed s') p = Some v.
Proof.
  intros Hp. pose proof (inv_revealed_true s Hinv _ _ Hp) as Hv.
  rewrite (mf_revealed _ _ _ _ _ _ _ Hmf), !dict_get_set.
  destruct (decide (p2 = p)) as [<-|_].
  { rewrite (mf_sym2 _ _ _ _ _ _ _ Hmf) in Hv. congruence. }
  destruct (decide (p1 = p)) as [<-|_]; [|done].
  rewrite (mf_sym1 _ _ _ _ _ _ _ Hmf) in Hv. congruence.
Qed.

Lemma move_inv : inv s'.
Proof.
  pose proof (mf_rows _ _ _ _ _ _ _ Hmf) as Er.
  pose proof (mf_cols _ _ _ _ _ _ _ Hmf) as Ec.
  pose proof (mf_board _ _ _ _ _ _ _ Hmf) as Eb.
  pose proof (mf_revealed _ _ _ _ _ _ _ Hmf) as Erev.
  pose proof (mf_matched _ _ _ _ _ _ _ Hmf) as Emat.
  pose proof (mf_sym1 _ _ _ _ _ _ _ Hmf) as Es1.
  pose proof (mf_sym2 _ _ _ _ _ _ _ Hmf) as Es2.
  constructor.
  - eapply board_ok_transfer; try apply Hmf. apply Hinv.
  - rewrite Erev. do 2 apply dict_set_NoDup. apply Hinv.
  - intros p. rewrite Erev, Er, Ec, !dict_set_keys.
    intros [->|[->|Hp]]; try done. by apply (inv_keys_pos s Hinv).
  - intros p v. rewrite Erev, !dict_get_set, (get_symbol_board _ _ _ Eb).
    destruct (decide (p2 = p)) as [<-|_]; [by intros [= <-]|].
    destruct (decide (p1 = p)) as [<-|_]; [by intros [= <-]|].
    apply (inv_revealed_true s Hinv).
  - intros p. rewrite Erev, Emat, !dict_set_keys.
    pose proof (inv_matched_revealed s Hinv p) as Hold.
    destruct (decide (v1 = v2)); [|by auto].
    rewrite !elem_of_union, !elem_of_singleton. intros [[?|?]|?]; auto.
  - intros p q. rewrite Er, Ec, Emat, !(get_symbol_board _ _ _ Eb).
    intros Hp Hq Hsym.
    pose proof (inv_matched_pairs s Hinv p q Hp Hq Hsym) as Hold.
    destruct (decide (v1 = v2)) as [->|_]; [|done].
    rewrite !elem_of_union, !elem_of_singleton.
    intros [[Hpm| ->]| ->]; [by left; left; auto| |].
    + destruct (at_most_two s (inv_board s Hinv) q p1 p2) as [-> | [E | ->]];
        try done; try congruence; auto.
    + destruct (at_most_two s (inv_board s Hinv) q p2 p1) as [-> | [E | ->]];
        try done; try congruence; auto.
  - rewrite move_size_matched. pose proof (inv_matched_even s Hinv) as [n Hn].
    destruct (decide (v1 = v2)); [exists (S n)|exists n]; lia.
  - rewrite move_length_revealed. pose proof (inv_revealed_even s Hinv) as [n Hn].
    destruct (decide (p1 ∈ (revealed s).*1)); [exists n|exists (S n)]; lia.
  - rewrite (mf_moves _ _ _ _ _ _ _ Hmf). pose proof (inv_moves s Hinv).
    destruct (decide (v1 = v2)); lia.
  - rewrite (mf_perfect _ _ _ _ _ _ _ Hmf). pose proof (inv_perfect s Hinv).
    destruct (decide (v1 = v2)); [destruct k|]; lia.
  - rewrite (mf_exploratory _ _ _ _ _ _ _ Hmf), (mf_moves _ _ _ _ _ _ _ Hmf).
    rewrite (inv_exploratory s Hinv). done.
Qed.
End legal_move.

(** ** The decision policy *)

Lemma find_known_match_Some s v q :
  find_known_match s v = Some q → (q, v) ∈ revealed s ∧ q ∉ matched s.
Proof.
  unfold find_known_match.
  destruct (filter _ (revealed s)) as [|[q' v'] l] eqn:E; simpl; [done|].
  intros [= <-].
  assert ((q', v') ∈ filter (λ kv : pos * Z, kv.2 = v ∧ kv.1 ∉ matched s) (revealed s))
    as Hin by (rewrite E; apply list_elem_of_here).
  apply list_elem_of_filter in Hin as [[Hv Hm] Hin]. simpl in *. by subst.
Qed.

Lemma find_known_match_None s v q :
  find_known_match s v = None → (q, v) ∈ revealed s → q ∈ matched s.
Proof.
  unfold find_known_match. intros Hnone Hin.
  destruct (decide (q ∈ matched s)) as [|Hm]; [done|exfalso].
  assert ((q, v) ∈ filter (λ kv : pos * Z, kv.2 = v ∧ kv.1 ∉ matched s) (revealed s))
    as Hf by (apply list_elem_of_filter; done).
  destruct (filter _ (revealed s)) as [|kv l]; [by apply elem_of_nil in Hf|done].
Qed.

Lemma known_match_scan_Some s U p q :
  known_match_scan s U = Some (p, q) →
  p ∈ U ∧ q ≠ p ∧
  ∃ v, dict_get (revealed s) p = Some v ∧ find_known_match s v = Some q.
Proof.
  induction U as [|p0 U IH]; simpl; [done|].
  assert (known_match_scan s U = Some (p, q) →
          p ∈ p0 :: U ∧ q ≠ p ∧
          ∃ v, dict_get (revealed s) p = Some v ∧ find_known_match s v = Some q)
    as Hrest.
  { intros H. destruct (IH H) as (? & ? & ?). split_and!; try done.
    by apply list_elem_of_further. }
  destruct (dict_get (revealed s) p0) as [v|] eqn:Eg; [|done].
  destruct (find_known_match s v) as [m|] eqn:Ef; [|done].
  destruct (decide (m ≠ p0)) as [Hne|_]; [|done].
  intros [= <- <-]. split_and!; [apply list_elem_of_here|done|eauto].
Qed.

Lemma known_match_scan_None s U p v :
  known_match_scan s U = None →
  p ∈ U → dict_get (revealed s) p = Some v →
  find_known_match s v = None ∨ find_known_match s v = Some p.
Proof.
  induction U as [|p0 U IH]; simpl; [by intros _ ?%elem_of_nil|].
  intros Hscan Hin Hget. apply elem_of_cons in Hin as [->|Hin].
  - rewrite Hget in Hscan. destruct (find_known_match s v) as [m|]; [|by left].
    destruct (decide (m ≠ p0)) as [|Heq]; [done|].
    right. f_equal. by destruct (decide (m = p0)).
  - apply IH; [|done..].
    destruct (dict_get (revealed s) p0) as [w|]; [|done].
    destruct (find_known_match s w) as [m|]; [|done].
    by destruct (decide (m ≠ p0)).
Qed.

Lemma elem_of_unmatched s p :
  p ∈ get_unmatched_positions s
  ↔ p ∈ all_positions (rows s) (cols s) ∧ p ∉ matched s.
Proof. unfold get_unmatched_positions. rewrite list_elem_of_filter. tauto. Qed.

Lemma elem_of_unrevealed s U p :
  p ∈ unrevealed_of s U ↔ p ∈ U ∧ p ∉ (revealed s).*1.
Proof. unfold unrevealed_of. rewrite list_elem_of_filter. tauto. Qed.

Lemma known_choice_facts s p1 p2 :
  inv s → known_choice s p1 p2 →
  legal s p1 p2 ∧ p1 ∈ (revealed s).*1 ∧ p2 ∈ (revealed s).*1
  ∧ ∃ v, get_symbol s p1 = Ok v ∧ get_symbol s p2 = Ok v.
Proof.
  intros Hinv Hk. apply known_match_scan_Some in Hk as (Hin & Hne & v & Hget & Hfind).
  apply elem_of_unmatched in Hin as [Hp1 Hm1].
  apply find_known_match_Some in Hfind as [Hrev Hm2].
  assert (p2 ∈ (revealed s).*1) as Hk2.
  { apply list_elem_of_fmap. by exists (p2, v). }
  assert (p1 ∈ (revealed s).*1) as Hk1.
  { apply dict_get_Some_elem in Hget. apply list_elem_of_fmap. by exists (p1, v). }
  split_and!; try done.
  - unfold legal. split_and!; try done. by apply (inv_keys_pos s Hinv).
  - exists v. split; apply (inv_revealed_true s Hinv); [done|].
    apply dict_get_elem; [apply Hinv|done].
Qed.

Lemma explore_choice_facts s p1 p2 :
  explore_choice s p1 p2 →
  legal s p1 p2 ∧ (p1 ∉ (revealed s).*1) ∧ (p2 ∉ (revealed s).*1).
Proof.
  intros [_ [rest Hu]].
  assert (p1 ∈ unrevealed_of s (get_unmatched_positions s)) as H1
    by (rewrite Hu; apply list_elem_of_here).
  assert (p2 ∈ unrevealed_of s (get_unmatched_positions s)) as H2
    by (rewrite Hu; apply list_elem_of_further, list_elem_of_here).
  apply elem_of_unrevealed in H1 as [[Hp1 Hm1]%elem_of_unmatched Hr1].
  apply elem_of_unrevealed in H2 as [[Hp2 Hm2]%elem_of_unmatched Hr2].
  assert (NoDup (unrevealed_of s (get_unmatched_positions s))) as Hnd.
  { apply NoDup_filter, NoDup_filter, NoDup_all_positions. }
  rewrite Hu in Hnd. apply NoDup_cons in Hnd as [Hnot _].
  split_and!; try done. unfold legal. split_and!; try done.
  intros ->. apply Hnot, list_elem_of_here.
Qed.

(** ** Counting matched and revealed positions *)

Section counting.
Variable s : sim.
Hypothesis Hinv : inv s.

Let P := all_positions (rows s) (cols s).

Lemma matched_in_grid p : p ∈ matched s → p ∈ P.
Proof.
  intros Hp. apply (inv_keys_pos s Hinv). by apply (inv_matched_revealed s Hinv).
Qed.

Lemma matched_subseteq_grid : matched s ⊆ list_to_set P.
Proof. intros p Hp. apply elem_of_list_to_set. by apply matched_in_grid. Qed.

Lemma size_matched_le : (size (matched s) ≤ length P)%nat.
Proof.
  rewrite <- (size_list_to_set (C := gset pos) P) by apply NoDup_all_positions.
  apply subseteq_size, matched_subseteq_grid.
Qed.

Lemma matched_full p : size (matched s) = length P → p ∈ P → p ∈ matched s.
Proof.
  intros Hsize Hp.
  rewrite (set_subseteq_size_eq (matched s) (list_to_set P)).
  - by apply elem_of_list_to_set.
  - apply matched_subseteq_grid.
  - rewrite size_list_to_set by apply NoDup_all_positions. lia.
Qed.

Lemma length_revealed_le : (length (revealed s) ≤ length P)%nat.
Proof.
  rewrite <- (length_fmap fst (revealed s)). apply submseteq_length.
  apply NoDup_submseteq; [apply Hinv|]. apply (inv_keys_pos s Hinv).
Qed.

Lemma unrevealed_length :
  (length (unrevealed_of s (get_unmatched_positions s)) + length (revealed s)
   = length P)%nat.
Proof.
  unfold unrevealed_of, get_unmatched_positions. fold P.
  rewrite list_filter_filter.
  rewrite (list_filter_iff _ (λ p, ¬ p ∈ (revealed s).*1)).
  2:{ intros p. split; [tauto|]. intros Hp. split; [done|].
      intros Hm. by apply Hp, (inv_matched_revealed s Hinv). }
  rewrite <- (Permutation_length (filter_app_complement (λ p, p ∈ (revealed s).*1) P)).
  rewrite length_app.
  assert (filter (λ p, p ∈ (revealed s).*1) P ≡ₚ (revealed s).*1) as ->.
  { apply NoDup_Permutation.
    - apply NoDup_filter, NoDup_all_positions.
    - apply Hinv.
    - intros p. rewrite list_elem_of_filter. split; [tauto|].
      intros Hp. split; [done|]. by apply (inv_keys_pos s Hinv). }
  rewrite length_fmap. lia.
Qed.

Lemma positions_even : Nat.Even (length P).
Proof.
  pose proof (positions_length s (inv_board s Hinv)) as Hlen. fold P in Hlen.
  pose proof (bo_even s (inv_board s Hinv)) as Hev.
  apply Z.even_spec in Hev as [k Hk]. exists (Z.to_nat k). lia.
Qed.

Lemma unrevealed_even :
  Nat.Even (length (unrevealed_of s (get_unmatched_positions s))).
Proof.
  pose proof unrevealed_length as Hlen.
  destruct positions_even as [n Hn]. destruct (inv_revealed_even s Hinv) as [m Hm].
  exists (n - m)%nat. lia.
Qed.

(** With nothing unseen and no known pair, no card is left. *)
Lemma no_move_left :
  known_match_scan s (get_unmatched_positions s) = None →
  unrevealed_of s (get_unmatched_positions s) = [] →
  get_unmatched_positions s = [].
Proof.
  intros Hscan Hunrev.
  assert (∀ p, p ∈ get_unmatched_positions s → p ∈ (revealed s).*1) as Hseen.
  { intros p Hp. destruct (decide (p ∈ (revealed s).*1)) as [|Hn]; [done|].
    assert (p ∈ unrevealed_of s (get_unmatched_positions s)) as Hin
      by (by apply elem_of_unrevealed).
    rewrite Hunrev in Hin. by apply elem_of_nil in Hin. }
  assert (∀ p, p ∈ get_unmatched_positions s → False) as Hnone;
    [|destruct (get_unmatched_positions s) as [|p U]; [done|];
      exfalso; apply (Hnone p), list_elem_of_here].
  intros p HpU.
  pose proof HpU as [Hp Hpm]%elem_of_unmatched.
  destruct (partner s (inv_board s Hinv) p Hp) as (q & Hq & Hne & Hsym).
  assert (q ∉ matched s) as Hqm.
  { intros Hqm. apply Hpm. by apply (inv_matched_pairs s Hinv q p). }
  assert (q ∈ get_unmatched_positions s) as HqU by (by apply elem_of_unmatched).
  destruct (dict_get_is_key _ _ (Hseen p HpU)) as [v Hv].
  destruct (dict_get_is_key _ _ (Hseen q HqU)) as [w Hw].
  pose proof (inv_revealed_true s Hinv _ _ Hv) as Ev.
  pose proof (inv_revealed_true s Hinv _ _ Hw) as Ew.
  assert (w = v) as -> by congruence.
  destruct (known_match_scan_None s _ p v Hscan HpU Hv) as [Hno|Hp'].
  - apply Hpm. eapply find_known_match_None; [done|]. by apply dict_get_Some_elem.
  - destruct (known_match_scan_None s _ q v Hscan HqU Hw) as [Hnone|Hq'].
    + apply Hqm. eapply find_known_match_None; [done|]. by apply dict_get_Some_elem.
    + congruence.
Qed.
End counting.

(** ** One turn *)

Lemma play_turn_complete s :
  Z.of_nat (size (matched s)) = total_cards s → play_turn s = Ok (s, false).
Proof. intros H. unfold play_turn. by rewrite decide_True. Qed.

Lemma play_turn_active s :
  inv s → Z.of_nat (size (matched s)) ≠ total_cards s →
  ∃ s' p1 p2 k v1 v2,
    play_turn s = Ok (s', true) ∧ turn_facts s s' p1 p2 k v1 v2.
Proof.
  intros Hinv Hsize. unfold play_turn. rewrite decide_False by done.
  destruct (known_match_scan s (get_unmatched_positions s)) as [[p q]|] eqn:Escan.
  - destruct (known_choice_facts s p q Hinv Escan) as (Hlegal & Hk1 & Hk2 & v & Hv1 & Hv2).
    destruct (make_move_fields s p q true v v Hv1 Hv2) as (s' & Hmove & Hf).
    exists s', p, q, true, v, v. rewrite Hmove. simpl. split; [done|].
    constructor; done.
  - destruct (unrevealed_of s (get_unmatched_positions s)) as [|p1 [|p2 rest]] eqn:Eu.
    + exfalso. apply Hsize.
      pose proof (no_move_left s Hinv Escan Eu) as Hnone.
      rewrite <- (positions_length s (inv_board s Hinv)). f_equal.
      apply Nat.le_antisymm; [by apply size_matched_le|].
      rewrite <- (size_list_to_set (C := gset pos)) by apply NoDup_all_positions.
      apply subseteq_size. intros p Hp%elem_of_list_to_set.
      destruct (decide (p ∈ matched s)) as [|Hn]; [done|exfalso].
      assert (p ∈ get_unmatched_positions s) as Hin by (by apply elem_of_unmatched).
      rewrite Hnone in Hin. by apply elem_of_nil in Hin.
    + exfalso. pose proof (unrevealed_even s Hinv) as [n Hn].
      rewrite Eu in Hn. simpl in Hn. lia.
    + assert (explore_choice s p1 p2) as Hex by (split; eauto).
      destruct (explore_choice_facts s p1 p2 Hex) as (Hlegal & Hr1 & Hr2).
      destruct Hlegal as (Hp1 & Hp2 & Hrest).
      destruct (symbol_defined s (inv_board s Hinv) p1 Hp1) as [v1 Hv1].
      destruct (symbol_defined s (inv_board s Hinv) p2 Hp2) as [v2 Hv2].
      destruct (make_move_fields s p1 p2 false v1 v2 Hv1 Hv2) as (s' & Hmove & Hf).
      exists s', p1, p2, false, v1, v2. rewrite Hmove. simpl. split; [done|].
      constructor; done.
Qed.

Lemma play_turn_cases s s' b :
  inv s → play_turn s = Ok (s', b) →
  (b = false ∧ s' = s ∧ Z.of_nat (size (matched s)) = total_cards s)
  ∨ (b = true ∧ Z.of_nat (size (matched s)) ≠ total_cards s
     ∧ ∃ p1 p2 k v1 v2, turn_facts s s' p1 p2 k v1 v2).
Proof.
  intros Hinv Hturn.
  destruct (decide (Z.of_nat (size (matched s)) = total_cards s)) as [Heq|Hne].
  - rewrite (play_turn_complete s Heq) in Hturn. injection Hturn as <- <-. by left.
  - destruct (play_turn_active s Hinv Hne) as (s'' & p1 & p2 & k & v1 & v2 & Ht & Hf).
    rewrite Ht in Hturn. injection Hturn as <- <-. right. eauto 10.
Qed.

Lemma turn_keys_iff s s' p1 p2 k v1 v2 :
  turn_facts s s' p1 p2 k v1 v2 →
  p1 ∈ (revealed s).*1 ↔ p2 ∈ (revealed s).*1.
Proof. intros [_ _ _ Hc]. destruct k; tauto. Qed.

Lemma turn_inv s s' p1 p2 k v1 v2 :
  inv s → turn_facts s s' p1 p2 k v1 v2 → inv s'.
Proof.
  intros Hinv Hf. pose proof (turn_keys_iff _ _ _ _ _ _ _ Hf) as Hiff.
  destruct Hf as [_ Hmf (Hp1 & Hp2 & Hne & Hm1 & Hm2) _].
  by apply (move_inv s s' p1 p2 k v1 v2).
Qed.

Lemma play_turn_inv s s' b : inv s → play_turn s = Ok (s', b) → inv s'.
Proof.
  intros Hinv Hturn.
  destruct (play_turn_cases s s' b Hinv Hturn)
    as [(_ & -> & _)|(_ & _ & p1 & p2 & k & v1 & v2 & Hf)]; [done|].
  by eapply turn_inv.
Qed.

(** ** The start of a game *)

Lemma setup_board_inv shuffle nrows ncols vb :
  is_shuffle shuffle → 0 <= nrows → 0 <= ncols →
  Z.even (nrows * ncols) = true →
  ∃ s0, setup_board shuffle (init nrows ncols vb) = Ok s0
      ∧ inv s0
      ∧ rows s0 = nrows ∧ cols s0 = ncols ∧ total_cards s0 = nrows * ncols
      ∧ total_pairs s0 = (nrows * ncols) `div` 2
      ∧ length (board s0) = Z.to_nat nrows
      ∧ Forall (λ r, length r = Z.to_nat ncols) (board s0)
      ∧ concat (board s0) = shuffle (pair_sequence ((nrows * ncols) `div` 2))
      ∧ revealed s0 = [] ∧ matched s0 = ∅
      ∧ moves s0 = 0 ∧ perfect_matches s0 = 0 ∧ exploratory_moves s0 = 0.
Proof.
  intros Hsh Hr Hc Hev.
  destruct (setup_board_ok shuffle nrows ncols vb Hsh Hr Hc Hev)
    as (b & Hsetup & Hlen & Hrows & Hcat).
  exists (set_board (init nrows ncols vb) b). split; [done|].
  split_and!; try done.
  constructor; try done.
  - constructor; try done.
    + by apply (board_symbols (set_board (init nrows ncols vb) b)).
    + simpl. rewrite Hcat. apply Hsh.
  - apply NoDup_nil_2.
  - intros p Hp. by apply elem_of_nil in Hp.
  - exists 0%nat. apply size_empty.
  - by exists 0%nat.
Qed.

(** ** The game loop, unfolded once *)

Lemma game_loop_eq s turn_count :
  game_loop s turn_count
  = match play_turn s with
    | Raise e => Raise e
    | Ok (s', false) => Ok (s', turn_count)
    | Ok (s', true) =>
        if decide (1000 < turn_count + 1) then Ok (s', turn_count + 1)
        else game_loop s' (turn_count + 1)
    end.
Proof.
  rewrite game_loop_equation_1.
  destruct (play_turn s) as [[s' [|]]|e]; simpl; [|done..].
  by destruct (decide (1000 < turn_count + 1)).
Qed.

(** ** Runs of turns *)

Lemma run_snoc k s s' s'' :
  run k s s' → play_turn s' = Ok (s'', true) → run (S k) s s''.
Proof.
  induction 1 as [s|k s s1 s2 Hturn Hrun IH]; intros Hlast.
  - eapply run_turn; [done|constructor].
  - eapply run_turn; [done|]. by apply IH.
Qed.

Lemma run_inv k s s' : inv s → run k s s' → inv s'.
Proof.
  intros Hinv Hrun. induction Hrun as [s|k s s1 s2 Hturn Hrun IH]; [done|].
  apply IH. by eapply play_turn_inv.
Qed.

Lemma fresh_game_inv shuffle nrows ncols vb s0 :
  fresh_game shuffle nrows ncols vb s0 → inv s0.
Proof.
  intros (Hsh & (Hr & Hc & Hev) & Hsetup).
  destruct (setup_board_inv shuffle nrows ncols vb Hsh) as (s0' & Hs0' & Hinv & _);
    [lia..|done|]. congruence.
Qed.

Lemma game_state_inv s : game_state s → inv s.
Proof.
  intros (shuffle & nrows & ncols & vb & s0 & Hfresh & k & Hrun).
  eapply run_inv; [|done]. by eapply fresh_game_inv.
Qed.

Lemma game_state_step s s' b :
  game_state s → play_turn s = Ok (s', b) → game_state s'.
Proof.
  intros Hgs Hturn. pose proof (game_state_inv s Hgs) as Hinv.
  destruct (play_turn_cases s s' b Hinv Hturn) as [(_ & -> & _)|(-> & _)]; [done|].
  destruct Hgs as (shuffle & nrows & ncols & vb & s0 & Hfresh & k & Hrun).
  exists shuffle, nrows, ncols, vb, s0. split; [done|].
  exists (S k). by eapply run_snoc.
Qed.

(** The static fields stay what they were. *)
Lemma play_turn_static s s' b :
  play_turn s = Ok (s', b) →
  rows s' = rows s ∧ cols s' = cols s ∧ total_cards s' = total_cards s
  ∧ total_pairs s' = total_pairs s ∧ board s' = board s.
Proof.
  assert (∀ p1 p2 k, (s1 ← make_move s p1 p2 k; Ok (s1, true)) = Ok (s', b) →
          rows s' = rows s ∧ cols s' = cols s ∧ total_cards s' = total_cards s
          ∧ total_pairs s' = total_pairs s ∧ board s' = board s) as Hmove.
  { intros p1 p2 k H. apply bind_Ok in H as (s1 & Hm & [= -> <-]).
    destruct (make_move_facts _ _ _ _ _ Hm) as (v1 & v2 & []). done. }
  unfold play_turn.
  destruct (decide _) as [_|_]; [by intros [= <- <-]|].
  destruct (known_match_scan _ _) as [[p q]|]; [by apply Hmove|].
  destruct (unrevealed_of _ _) as [|p1 [|p2 rest]]; [by intros [= <- <-]| |by apply Hmove].
  intros H. apply bind_Ok in H as (p2 & _ & H). by eapply Hmove.
Qed.

Lemma run_static k s s' :
  run k s s' →
  rows s' = rows s ∧ cols s' = cols s ∧ total_cards s' = total_cards s
  ∧ total_pairs s' = total_pairs s ∧ board s' = board s.
Proof.
  induction 1 as [s|k s s1 s2 Hturn Hrun IH]; [done|].
  destruct (play_turn_static _ _ _ Hturn) as (E1 & E2 & E3 & E4 & E5).
  destruct IH as (F1 & F2 & F3 & F4 & F5). split_and!; congruence.
Qed.

(** ** Progress of a turn *)

Lemma turn_sizes s s' p1 p2 k v1 v2 :
  inv s → turn_facts s s' p1 p2 k v1 v2 →
  size (matched s') = (size (matched s) + if decide (v1 = v2) then 2 else 0)%nat
  ∧ length (revealed s') = (length (revealed s) + if k then 0 else 2)%nat
  ∧ (k = true → v1 = v2).
Proof.
  intros Hinv Hf. pose proof (turn_keys_iff _ _ _ _ _ _ _ Hf) as Hiff.
  destruct Hf as [_ Hmf (Hp1 & Hp2 & Hne & Hm1 & Hm2) Hc].
  split_and!.
  - by apply (move_size_matched s s' p1 p2 k v1 v2).
  - rewrite (move_length_revealed s s' p1 p2 k v1 v2) by done.
    destruct k.
    + rewrite decide_True by tauto. done.
    + rewrite decide_False by tauto. done.
  - intros ->. tauto.
Qed.

Lemma turn_remaining s s' p1 p2 k v1 v2 :
  inv s → turn_facts s s' p1 p2 k v1 v2 →
  (remaining s' + 2 ≤ remaining s)%nat.
Proof.
  intros Hinv Hf. pose proof (turn_inv _ _ _ _ _ _ _ Hinv Hf) as Hinv'.
  destruct (turn_sizes _ _ _ _ _ _ _ Hinv Hf) as (Hm & Hr & Hk).
  pose proof (size_matched_le s' Hinv') as Hle1.
  pose proof (length_revealed_le s' Hinv') as Hle2.
  unfold remaining.
  rewrite (mf_rows _ _ _ _ _ _ _ (tf_fields _ _ _ _ _ _ _ Hf)) in *.
  rewrite (mf_cols _ _ _ _ _ _ _ (tf_fields _ _ _ _ _ _ _ Hf)) in *.
  destruct k; [rewrite decide_True in Hm by auto|destruct (decide (v1 = v2))]; lia.
Qed.

(** Every turn is either a wrong guess or a match. *)
Lemma turn_count s s' p1 p2 k v1 v2 :
  inv s → turn_facts s s' p1 p2 k v1 v2 →
  2 * moves s' + Z.of_nat (size (matched s'))
  = 2 * moves s + Z.of_nat (size (matched s)) + 2.
Proof.
  intros Hinv Hf. destruct (turn_sizes _ _ _ _ _ _ _ Hinv Hf) as (Hm & _ & _).
  rewrite Hm, (mf_moves _ _ _ _ _ _ _ (tf_fields _ _ _ _ _ _ _ Hf)).
  destruct (decide (v1 = v2)); lia.
Qed.

Lemma run_count k s s' :
  inv s → run k s s' →
  2 * moves s' + Z.of_nat (size (matched s'))
  = 2 * moves s + Z.of_nat (size (matched s)) + 2 * Z.of_nat k.
Proof.
  intros Hinv Hrun. induction Hrun as [s|k s s1 s2 Hturn Hrun IH]; [lia|].
  pose proof (play_turn_inv _ _ _ Hinv Hturn) as Hinv1.
  destruct (play_turn_cases _ _ _ Hinv Hturn)
    as [(? & _)|(_ & _ & p1 & p2 & kd & v1 & v2 & Hf)]; [done|].
  rewrite (IH Hinv1), (turn_count _ _ _ _ _ _ _ Hinv Hf). lia.
Qed.

(** ** Termination *)

Lemma complete_matched s p :
  inv s → Z.of_nat (size (matched s)) = total_cards s →
  p ∈ matched s ↔ p ∈ all_positions (rows s) (cols s).
Proof.
  intros Hinv Hsize. split; [by apply matched_in_grid|].
  apply matched_full; [done|].
  pose proof (positions_length s (inv_board s Hinv)). lia.
Qed.

Lemma game_terminates_within n s :
  inv s → (remaining s ≤ n)%nat →
  ∃ k s', run k s s' ∧ (2 * k ≤ remaining s)%nat ∧ inv s'
        ∧ Z.of_nat (size (matched s')) = total_cards s'
        ∧ play_turn s' = Ok (s', false).
Proof.
  revert s. induction n as [|n IH]; intros s Hinv Hn.
  - destruct (decide (Z.of_nat (size (matched s)) = total_cards s)) as [Heq|Hne].
    + exists 0%nat, s. split_and!; [constructor|lia|done|done|by apply play_turn_complete].
    + destruct (play_turn_active s Hinv Hne) as (s1 & p1 & p2 & k & v1 & v2 & _ & Hf).
      pose proof (turn_remaining _ _ _ _ _ _ _ Hinv Hf). lia.
  - destruct (decide (Z.of_nat (size (matched s)) = total_cards s)) as [Heq|Hne].
    + exists 0%nat, s. split_and!; [constructor|lia|done|done|by apply play_turn_complete].
    + destruct (play_turn_active s Hinv Hne) as (s1 & p1 & p2 & k & v1 & v2 & Ht & Hf).
      pose proof (turn_remaining _ _ _ _ _ _ _ Hinv Hf) as Hdec.
      destruct (IH s1) as (j & s' & Hrun & Hj & Hinv' & Hdone & Hlast);
        [by eapply turn_inv|lia|].
      exists (S j), s'. split_and!; try done; [by eapply run_turn|lia].
Qed.

Lemma game_terminates s :
  inv s →
  ∃ k s', run k s s' ∧ (2 * k ≤ remaining s)%nat ∧ inv s'
        ∧ Z.of_nat (size (matched s')) = total_cards s'
        ∧ play_turn s' = Ok (s', false).
Proof. intros Hinv. by apply (game_terminates_within (remaining s)). Qed.

(** ** The loop of [play_game] along a run *)

Lemma game_loop_finish k s s' turn_count :
  run k s s' → play_turn s' = Ok (s', false) →
  turn_count + Z.of_nat k <= 1000 →
  game_loop s turn_count = Ok (s', turn_count + Z.of_nat k).
Proof.
  intros Hrun. revert turn_count.
  induction Hrun as [s|k s s1 s2 Hturn Hrun IH]; intros tc Hlast Hle.
  - rewrite game_loop_eq, Hlast. do 2 f_equal. lia.
  - rewrite game_loop_eq, Hturn. rewrite decide_False by lia.
    rewrite IH by (done || lia). do 2 f_equal. lia.
Qed.

Lemma game_loop_cap k s s' turn_count :
  run (S k) s s' → turn_count + Z.of_nat (S k) = 1001 →
  game_loop s turn_count = Ok (s', 1001).
Proof.
  revert s turn_count. induction k as [|k IH]; intros s tc Hrun Htc.
  - inversion Hrun as [|k' s0 s1 s2 Hturn Hrest]; subst.
    inversion Hrest; subst.
    rewrite game_loop_eq, Hturn. rewrite decide_True by lia. do 2 f_equal. lia.
  - inversion Hrun as [|k' s0 s1 s2 Hturn Hrest]; subst.
    rewrite game_loop_eq, Hturn. rewrite decide_False by lia.
    apply IH; [done|lia].
Qed.

(** ** Further facts along runs *)

Lemma run_revealed_kept k s s' p v :
  inv s → run k s s' →
  dict_get (revealed s) p = Some v → dict_get (revealed s') p = Some v.
Proof.
  intros Hinv Hrun. induction Hrun as [s|k s s1 s2 Hturn Hrun IH]; [done|].
  intros Hp. apply IH; [by eapply play_turn_inv|].
  destruct (play_turn_cases _ _ _ Hinv Hturn)
    as [(? & _)|(_ & _ & p1 & p2 & kd & v1 & v2 & Hf)]; [done|].
  pose proof (turn_keys_iff _ _ _ _ _ _ _ Hf) as Hiff.
  destruct Hf as [_ Hmf (Hp1 & Hp2 & Hne & Hm1 & Hm2) _].
  by apply (move_revealed_kept s s1 p1 p2 kd v1 v2).
Qed.

(** As long as cards are left, turns can be played. *)
Lemma run_exists k s :
  inv s →
  Z.of_nat (size (matched s)) + 2 * Z.of_nat k <= total_cards s + 1 →
  ∃ s', run k s s'.
Proof.
  revert s. induction k as [|k IH]; intros s Hinv Hk.
  - exists s. constructor.
  - destruct (play_turn_active s Hinv) as (s1 & p1 & p2 & kd & v1 & v2 & Ht & Hf);
      [lia|].
    destruct (turn_sizes _ _ _ _ _ _ _ Hinv Hf) as (Hm & _ & _).
    destruct (IH s1) as [s' Hrun]; [by eapply turn_inv| |].
    + rewrite (mf_total_cards _ _ _ _ _ _ _ (tf_fields _ _ _ _ _ _ _ Hf)).
      destruct (decide (v1 = v2)); lia.
    + exists s'. by eapply run_turn.
Qed.

(** ** The small concrete game *)

Lemma is_shuffle_keep_order : is_shuffle keep_order.
Proof. intros l. reflexivity. Qed.

Lemma demo_fresh : fresh_game keep_order 2 2 false demo_start.
Proof.
  split_and!; [apply is_shuffle_keep_order| |vm_compute; reflexivity].
  unfold valid_dims. split_and!; [lia|lia|reflexivity].
Qed.

Lemma demo_run_one : run 1 demo_start demo_one_turn.
Proof. eapply run_turn; [vm_compute; reflexivity|constructor]. Qed.

Lemma demo_run_two : run 2 demo_start demo_two_turns.
Proof.
  eapply run_turn; [vm_compute; reflexivity|].
  eapply run_turn; [vm_compute; reflexivity|constructor].
Qed.

Lemma demo_start_state : game_state demo_start.
Proof.
  exists keep_order, 2, 2, false, demo_start. split; [apply demo_fresh|].
  exists 0%nat. constructor.
Qed.

Lemma demo_one_turn_state : game_state demo_one_turn.
Proof.
  exists keep_order, 2, 2, false, demo_start. split; [apply demo_fresh|].
  exists 1%nat. apply demo_run_one.
Qed.

Lemma demo_two_turns_state : game_state demo_two_turns.
Proof.
  exists keep_order, 2, 2, false, demo_start. split; [apply demo_fresh|].
  exists 2%nat. apply demo_run_two.
Qed.

(** * Properties stated by the specification *)

(** C1.  For positive dimensions with an even number of cells,
    [setup_board] succeeds and leaves a grid of [rows] rows of [cols] cells
    whose row-major reading is the shuffled pair sequence, a permutation of
    [[0, ..., pairs-1, 0, ..., pairs-1]]; every symbol below [pairs] occurs
    exactly twice and nothing else occurs; and no state the game later
    reaches has a different board. *)
Theorem setup_board_layout shuffle nrows ncols vb :
  is_shuffle shuffle → 0 < nrows → 0 < ncols →
  Z.even (nrows * ncols) = true →
  ∃ s0, setup_board shuffle (init nrows ncols vb) = Ok s0
    ∧ length (board s0) = Z.to_nat nrows
    ∧ Forall (λ r, length r = Z.to_nat ncols) (board s0)
    ∧ concat (board s0) = shuffle (pair_sequence ((nrows * ncols) `div` 2))
    ∧ concat (board s0) ≡ₚ pair_sequence ((nrows * ncols) `div` 2)
    ∧ (∀ v, count_of v (concat (board s0))
            = if decide (0 <= v < (nrows * ncols) `div` 2) then 2%nat else 0%nat)
    ∧ (∀ s, reachable s0 s → board s = board s0).
Proof.
  intros Hsh Hr Hc Hev.
  destruct (setup_board_inv shuffle nrows ncols vb Hsh) as
    (s0 & Hsetup & Hinv & _ & _ & _ & _ & Hlen & Hrows & Hcat & _); [lia|lia|done|].
  exists s0. split_and!; try done.
  - rewrite Hcat. apply Hsh.
  - intros v. rewrite Hcat, (count_of_perm _ _ _ (Hsh _)).
    apply count_of_pair_sequence.
  - intros s [k Hrun]. by destruct (run_static _ _ _ Hrun) as (_ & _ & _ & _ & ?).
Qed.

Lemma setup_board_layout_witness :
  ∃ s0, setup_board keep_order (init 2 2 false) = Ok s0
      ∧ concat (board s0) = [0; 1; 0; 1]
      ∧ count_of 1 (concat (board s0)) = 2%nat.
Proof.
  destruct (setup_board_layout keep_order 2 2 false)
    as (s0 & Hsetup & _ & _ & Hcat & _ & Hcount & _).
  - intros l. reflexivity.
  - lia.
  - lia.
  - reflexivity.
  - exists s0. split; [exact Hsetup|]. split; [exact Hcat|]. exact (Hcount 1).
Defined.

(** C2.  In a reachable state, the pair picked by the known-match step holds
    two equal board symbols, so the turn is played as a match: both
    positions join [matched], [perfect_matches] grows by one and [moves]
    does not change. *)
Theorem known_match_is_match s p q :
  game_state s → known_choice s p q →
  ∃ v s', get_symbol s p = Ok v ∧ get_symbol s q = Ok v
    ∧ make_move s p q true = Ok s'
    ∧ play_turn s = Ok (s', true)
    ∧ matched s' = matched s ∪ {[p]} ∪ {[q]}
    ∧ perfect_matches s' = perfect_matches s + 1
    ∧ moves s' = moves s.
Proof.
  intros Hgs Hk. pose proof (game_state_inv s Hgs) as Hinv.
  destruct (known_choice_facts s p q Hinv Hk) as (Hlegal & _ & _ & v & Hv1 & Hv2).
  destruct Hlegal as (Hp & _ & _ & Hpm & _).
  assert (Z.of_nat (size (matched s)) ≠ total_cards s) as Hne.
  { intros Heq. apply Hpm. by apply complete_matched. }
  destruct (play_turn_active s Hinv Hne) as (s' & p1 & p2 & k & v1 & v2 & Ht & Hf).
  destruct Hf as [Hmove Hmf _ Hc].
  destruct k.
  - destruct Hc as (Hk' & Hv & _). unfold known_choice in Hk, Hk'.
    assert (p1 = p ∧ p2 = q) as [-> ->] by (split; congruence).
    destruct Hmf as [E1 _ _ _ _ _ _ _ _ Emat Emov _ Eperf].
    assert (v1 = v) as Hv' by congruence. subst v1 v2.
    rewrite decide_True in Emat by done. rewrite decide_True in Emov by done.
    rewrite decide_True in Eperf by done.
    exists v, s'. split_and!; done.
  - destruct Hc as ((Hnone & _) & _). unfold known_choice in Hk. congruence.
Qed.

Lemma known_match_is_match_witness :
  ∃ s', play_turn demo_two_turns = Ok (s', true)
      ∧ matched s' = matched demo_two_turns ∪ {[(1, 0)]} ∪ {[(0, 0)]}
      ∧ moves s' = 2.
Proof.
  destruct (known_match_is_match demo_two_turns (1, 0) (0, 0))
    as (v & s' & _ & _ & _ & Hturn & Hmatched & _ & Hmoves).
  - apply demo_two_turns_state.
  - vm_compute. reflexivity.
  - exists s'. split; [exact Hturn|]. split; [exact Hmatched|]. exact Hmoves.
Defined.

(** C3, as the code has it.  On every valid board the turns played from the
    fresh state reach completion after at most [total_cards] turns: then
    [matched] holds exactly the grid positions and [play_turn] returns
    [False]; [moves] and [perfect_matches] are never negative.  When the board
    has at most 1000 cards, [play_game] runs this very game to its end, so its
    1000-turn cap is not reached. *)
Theorem game_completes shuffle nrows ncols vb :
  is_shuffle shuffle → valid_dims nrows ncols →
  ∃ s0 k s',
    setup_board shuffle (init nrows ncols vb) = Ok s0
    ∧ run k s0 s' ∧ Z.of_nat k <= nrows * ncols
    ∧ play_turn s' = Ok (s', false)
    ∧ (∀ p, p ∈ matched s' ↔ p ∈ all_positions nrows ncols)
    ∧ (∀ s, reachable s0 s → 0 <= moves s ∧ 0 <= perfect_matches s)
    ∧ (nrows * ncols <= 1000 →
       play_game_turns shuffle (init nrows ncols vb) = Ok (s', Z.of_nat k)
       ∧ play_game shuffle (init nrows ncols vb) = Ok (s', moves s')).
Proof.
  intros Hsh (Hr & Hc & Hev).
  destruct (setup_board_inv shuffle nrows ncols vb Hsh) as
    (s0 & Hsetup & Hinv & Hrows & Hcols & Htotal & _ & _ & _ & _ & Hrev & Hmat & _);
    [lia|lia|done|].
  destruct (game_terminates s0 Hinv) as (k & s' & Hrun & Hk & Hinv' & Hdone & Hlast).
  destruct (run_static _ _ _ Hrun) as (Er & Ec & Et & _ & _).
  assert (Z.of_nat k <= nrows * ncols) as Hbound.
  { pose proof (positions_length s0 (inv_board s0 Hinv)) as Hlen.
    unfold remaining in Hk. rewrite Hrev, Hmat, size_empty in Hk. simpl in Hk. lia. }
  exists s0, k, s'. split_and!; try done.
  - intros p. rewrite <- Hrows, <- Hcols, <- Er, <- Ec. by apply complete_matched.
  - intros s [j Hj]. pose proof (run_inv _ _ _ Hinv Hj) as Hs.
    split; apply Hs.
  - intros Hsmall.
    assert (game_loop s0 0 = Ok (s', Z.of_nat k)) as Hloop.
    { rewrite (game_loop_finish k s0 s' 0 Hrun Hlast) by lia. do 2 f_equal. }
    unfold play_game_turns, play_game. rewrite Hsetup. simpl. rewrite Hloop. done.
Qed.

Lemma game_completes_witness :
  ∃ s0 k s',
    setup_board keep_order (init 2 2 false) = Ok s0
    ∧ run k s0 s' ∧ Z.of_nat k <= 4
    ∧ play_game_turns keep_order (init 2 2 false) = Ok (s', Z.of_nat k).
Proof.
  destruct (game_completes keep_order 2 2 false)
    as (s0 & k & s' & Hsetup & Hrun & Hk & _ & _ & _ & Hgame).
  - intros l. reflexivity.
  - unfold valid_dims. split; [lia|]. split; [lia|reflexivity].
  - exists s0, k, s'. split; [exact Hsetup|]. split; [exact Hrun|].
    split; [exact Hk|]. apply Hgame. lia.
Defined.

(** C3, as stated, fails on big boards: on the 2x1002 board the loop of
    [play_game] is left through its cap, after 1001 turns, with cards still
    unmatched. *)
Lemma cap_reached_on_big_board :
  is_shuffle keep_order ∧ valid_dims 2 1002
  ∧ ∃ s, play_game_turns keep_order (init 2 1002 false) = Ok (s, 1001)
       ∧ play_game keep_order (init 2 1002 false) = Ok (s, moves s)
       ∧ Z.of_nat (size (matched s)) < total_cards s.
Proof.
  assert (valid_dims 2 1002) as Hdims.
  { unfold valid_dims. split_and!; [lia|lia|reflexivity]. }
  split; [apply is_shuffle_keep_order|]. split; [exact Hdims|].
  destruct (setup_board_inv keep_order 2 1002 false is_shuffle_keep_order) as
    (s0 & Hsetup & Hinv & _ & _ & Htotal & _ & _ & _ & _ & _ & Hmat & Hmoves & _);
    [lia|lia|reflexivity|].
  destruct (run_exists 1001 s0 Hinv) as [s Hrun].
  { rewrite Hmat, size_empty, Htotal. lia. }
  exists s.
  assert (game_loop s0 0 = Ok (s, 1001)) as Hloop
    by (apply (game_loop_cap 1000 s0 s 0 Hrun); lia).
  unfold play_game_turns, play_game. rewrite Hsetup. clear Hsetup.
  unfold mbind, result_bind. rewrite Hloop.
  split; [reflexivity|]. split; [reflexivity|].
  pose proof (run_count _ _ _ Hinv Hrun) as Hcount.
  pose proof (inv_moves s (run_inv _ _ _ Hinv Hrun)) as Hpos.
  destruct (run_static _ _ _ Hrun) as (_ & _ & Et & _).
  rewrite Hmat, size_empty, Hmoves in Hcount. rewrite Et, Htotal. lia.
Qed.

(** C4.  The code plays turns that none of its counters records: on the 1x2
    board the only turn is a lucky match, the game is complete after it, and
    [moves + perfect_matches], which [play_game] reports as the turns taken,
    is still 0. *)
Theorem lucky_match_not_counted :
  ∃ s, play_game_turns keep_order (init 1 2 false) = Ok (s, 1)
     ∧ play_turn s = Ok (s, false)
     ∧ moves s + perfect_matches s = 0.
Proof.
  eexists. split; [vm_compute; reflexivity|].
  split; [vm_compute; reflexivity|reflexivity].
Qed.

(** What the turns of a finished game do add up to: the wrong guesses plus
    one turn for every pair. *)
Lemma turns_of_a_complete_game k s0 s' :
  inv s0 → matched s0 = ∅ → moves s0 = 0 →
  run k s0 s' → Z.of_nat (size (matched s')) = total_cards s' →
  Z.of_nat k = moves s' + total_pairs s'.
Proof.
  intros Hinv Hmat Hmoves Hrun Hdone.
  pose proof (run_count _ _ _ Hinv Hrun) as Hcount.
  pose proof (run_inv _ _ _ Hinv Hrun) as Hinv'.
  rewrite Hmat, size_empty, Hmoves, Hdone in Hcount.
  rewrite (bo_pairs s' (inv_board s' Hinv')).
  pose proof (bo_even s' (inv_board s' Hinv')) as Hev.
  apply Z.even_spec in Hev as [n Hn]. rewrite Hn in *.
  rewrite (Z.mul_comm 2 n), Z.div_mul by lia. lia.
Qed.

(** ** The 2x2 board *)

Lemma shuffles_of_two_pairs (l : list Z) :
  l ≡ₚ [0; 1; 0; 1] →
  l ∈ [[0; 0; 1; 1]; [0; 1; 0; 1]; [0; 1; 1; 0];
       [1; 0; 0; 1]; [1; 0; 1; 0]; [1; 1; 0; 0]].
Proof.
  intros Hperm.
  pose proof (Permutation_length Hperm) as Hlen.
  pose proof (count_of_perm 0 _ _ Hperm) as Hzero.
  assert (∀ x, x ∈ l → x = 0 ∨ x = 1) as Hbit.
  { intros x Hx. rewrite Hperm in Hx.
    repeat (apply elem_of_cons in Hx as [->|Hx]); auto.
    by apply elem_of_nil in Hx. }
  destruct l as [|a [|b [|c [|d [|e l]]]]]; try discriminate Hlen.
  assert (a = 0 ∨ a = 1) as Ha by (apply Hbit; repeat constructor).
  assert (b = 0 ∨ b = 1) as Hb by (apply Hbit; repeat constructor).
  assert (c = 0 ∨ c = 1) as Hc by (apply Hbit; repeat constructor).
  assert (d = 0 ∨ d = 1) as Hd by (apply Hbit; repeat constructor).
  clear Hbit Hperm Hlen.
  destruct Ha as [-> | ->], Hb as [-> | ->], Hc as [-> | ->], Hd as [-> | ->];
    vm_compute in Hzero; try discriminate Hzero; clear Hzero;
    repeat first [apply list_elem_of_here | apply list_elem_of_further].
Qed.

Lemma setup_board_shuffled shuffle s pairs :
  shuffle (pair_sequence (total_pairs s)) = pairs →
  setup_board shuffle s = setup_board (λ _, pairs) s.
Proof. intros <-. reflexivity. Qed.

(** C5, as the code has it.  Whatever the shuffle, [play_game] on the 2x2
    board ends with the game complete, after 2 turns and no wrong guess or
    after 4 turns and 2 wrong guesses. *)
Theorem two_by_two_game shuffle vb :
  is_shuffle shuffle →
  ∃ s turns,
    play_game_turns shuffle (init 2 2 vb) = Ok (s, turns)
    ∧ play_game shuffle (init 2 2 vb) = Ok (s, moves s)
    ∧ play_turn s = Ok (s, false)
    ∧ Z.of_nat (size (matched s)) = 4
    ∧ ((turns = 2 ∧ moves s = 0) ∨ (turns = 4 ∧ moves s = 2)).
Proof.
  intros Hsh.
  pose proof (shuffles_of_two_pairs _ (Hsh (pair_sequence 2))) as Hcases.
  unfold play_game_turns, play_game.
  repeat (apply elem_of_cons in Hcases as [Hp|Hcases]);
    [..|by apply elem_of_nil in Hcases];
    rewrite (setup_board_shuffled shuffle (init 2 2 vb) _ Hp);
    eexists _, _;
    (split; [vm_compute; reflexivity|]);
    (split; [vm_compute; reflexivity|]);
    (split; [vm_compute; reflexivity|]);
    (split; [vm_compute; reflexivity|]);
    first [left; split; reflexivity | right; split; reflexivity].
Qed.

Lemma two_by_two_game_witness :
  ∃ s turns,
    play_game_turns keep_order (init 2 2 false) = Ok (s, turns)
    ∧ ((turns = 2 ∧ moves s = 0) ∨ (turns = 4 ∧ moves s = 2)).
Proof.
  destruct (two_by_two_game keep_order false) as (s & turns & Hgame & _ & _ & _ & Hor).
  - intros l. reflexivity.
  - exists s, turns. split; [exact Hgame|exact Hor].
Defined.

(** C5, as stated, fails: with the cards left in generation order the 2x2
    game takes 4 turns and [play_game] returns 2 wrong guesses. *)
Lemma two_by_two_wrong_guesses :
  is_shuffle keep_order
  ∧ ∃ s, play_game_turns keep_order (init 2 2 false) = Ok (s, 4)
       ∧ play_game keep_order (init 2 2 false) = Ok (s, 2).
Proof.
  split; [apply is_shuffle_keep_order|].
  eexists. split; vm_compute; reflexivity.
Qed.

(** C6.  Memory only accumulates.  A position recorded in a reachable state
    carries its true board symbol, and keeps that very entry in every state
    reached later; flipping it again writes the same symbol back, which leaves
    the dictionary as it was. *)
Theorem revealed_monotone s s' p v :
  game_state s → reachable s s' →
  dict_get (revealed s) p = Some v →
  get_symbol s p = Ok v
  ∧ dict_get (revealed s') p = Some v
  ∧ get_symbol s' p = Ok v
  ∧ (∀ w, get_symbol s p = Ok w → dict_set (revealed s) p w = revealed s).
Proof.
  intros Hgs [k Hrun] Hp. pose proof (game_state_inv s Hgs) as Hinv.
  pose proof (inv_revealed_true s Hinv _ _ Hp) as Hv.
  destruct (run_static _ _ _ Hrun) as (_ & _ & _ & _ & Hb).
  split_and!.
  - done.
  - by eapply run_revealed_kept.
  - by rewrite (get_symbol_board _ _ _ Hb).
  - intros w Hw. apply dict_set_same. congruence.
Qed.

Lemma revealed_monotone_witness :
  dict_get (revealed demo_two_turns) (0, 1) = Some 1
  ∧ get_symbol demo_two_turns (0, 1) = Ok 1.
Proof.
  destruct (revealed_monotone demo_one_turn demo_two_turns (0, 1) 1)
    as (_ & Hkept & Hsym & _).
  - apply demo_one_turn_state.
  - exists 1%nat. eapply run_turn; [vm_compute; reflexivity|constructor].
  - reflexivity.
  - split; [exact Hkept|exact Hsym].
Defined.

(** C7.  In a reachable state [matched] has at most [total_cards] elements,
    an even number of them, all of them keys of [revealed]; a turn never
    takes a position out of it, and leaves a state with the same
    properties. *)
Theorem matched_invariants s :
  game_state s →
  (Z.of_nat (size (matched s)) <= total_cards s
   ∧ Nat.Even (size (matched s))
   ∧ ∀ p, p ∈ matched s → p ∈ (revealed s).*1)
  ∧ ∀ s' b, play_turn s = Ok (s', b) →
      matched s ⊆ matched s'
      ∧ (size (matched s) ≤ size (matched s'))%nat
      ∧ Z.of_nat (size (matched s')) <= total_cards s'
      ∧ Nat.Even (size (matched s'))
      ∧ ∀ p, p ∈ matched s' → p ∈ (revealed s').*1.
Proof.
  assert (∀ s, inv s →
            Z.of_nat (size (matched s)) <= total_cards s
            ∧ Nat.Even (size (matched s))
            ∧ ∀ p, p ∈ matched s → p ∈ (revealed s).*1) as Hstate.
  { intros s0 Hinv. split_and!; [|apply Hinv..].
    rewrite <- (positions_length s0 (inv_board s0 Hinv)).
    pose proof (size_matched_le s0 Hinv). lia. }
  intros Hgs. pose proof (game_state_inv s Hgs) as Hinv.
  split; [by apply Hstate|]. intros s' b Hturn.
  assert (matched s ⊆ matched s') as Hsub.
  { destruct (play_turn_cases _ _ _ Hinv Hturn)
      as [(_ & -> & _)|(_ & _ & p1 & p2 & k & v1 & v2 & Hf)]; [done|].
    pose proof (turn_keys_iff _ _ _ _ _ _ _ Hf) as Hiff.
    destruct Hf as [_ Hmf (Hp1 & Hp2 & Hne & Hm1 & Hm2) _].
    by apply (move_matched_subseteq s s' p1 p2 k v1 v2). }
  split; [done|]. split; [by apply subseteq_size|].
  apply Hstate. by eapply play_turn_inv.
Qed.

Lemma matched_invariants_witness :
  Z.of_nat (size (matched demo_two_turns)) <= total_cards demo_two_turns
  ∧ Nat.Even (size (matched demo_two_turns)).
Proof.
  destruct (matched_invariants demo_two_turns) as ((Hle & Hev & _) & _).
  - apply demo_two_turns_state.
  - split; [exact Hle|exact Hev].
Defined.

(** C8.  [moves] and [exploratory_moves] are both 0 after [__init__] and
    after [setup_board], every [make_move] adds the same amount to each, and
    so they are equal in every reachable state. *)
Theorem moves_equal_exploratory s :
  game_state s →
  moves s = exploratory_moves s
  ∧ (∀ nrows ncols vb,
       moves (init nrows ncols vb) = 0
       ∧ exploratory_moves (init nrows ncols vb) = 0)
  ∧ (∀ shuffle nrows ncols vb s0,
       setup_board shuffle (init nrows ncols vb) = Ok s0 →
       moves s0 = 0 ∧ exploratory_moves s0 = 0)
  ∧ (∀ s1 p1 p2 k s2, make_move s1 p1 p2 k = Ok s2 →
       exploratory_moves s2 - exploratory_moves s1 = moves s2 - moves s1).
Proof.
  intros Hgs. split_and!.
  - symmetry. apply (inv_exploratory s (game_state_inv s Hgs)).
  - done.
  - intros shuffle nrows ncols vb s0 Hsetup. unfold setup_board in Hsetup.
    apply bind_Ok in Hsetup as ([b idx] & _ & [= <-]). done.
  - intros s1 p1 p2 k s2 Hmove.
    destruct (make_move_facts _ _ _ _ _ Hmove) as (v1 & v2 & Hmf).
    rewrite (mf_moves _ _ _ _ _ _ _ Hmf), (mf_exploratory _ _ _ _ _ _ _ Hmf).
    destruct (decide (v1 = v2)); lia.
Qed.

Lemma moves_equal_exploratory_witness :
  moves demo_two_turns = exploratory_moves demo_two_turns.
Proof.
  destruct (moves_equal_exploratory demo_two_turns) as (Heq & _).
  - apply demo_two_turns_state.
  - exact Heq.
Defined.

(** C9.  With positive dimensions, an odd number of cells makes
    [setup_board] raise [IndexError] (the pair sequence is one card short), so
    [play_game] raises before its loop is entered; an even number of cells
    makes [setup_board] return a state. *)
Theorem odd_board_fails_fast shuffle nrows ncols vb :
  is_shuffle shuffle → 0 < nrows → 0 < ncols →
  (Z.odd (nrows * ncols) = true →
     setup_board shuffle (init nrows ncols vb) = Raise IndexError
     ∧ play_game shuffle (init nrows ncols vb) = Raise IndexError
     ∧ play_game_turns shuffle (init nrows ncols vb) = Raise IndexError)
  ∧ (Z.even (nrows * ncols) = true →
     ∃ s0, setup_board shuffle (init nrows ncols vb) = Ok s0).
Proof.
  intros Hsh Hr Hc. split.
  - intros Hodd.
    pose proof (setup_board_odd shuffle nrows ncols vb Hsh) as Hraise.
    unfold play_game, play_game_turns. rewrite Hraise by (done || lia). done.
  - intros Hev.
    destruct (setup_board_ok shuffle nrows ncols vb Hsh) as (b & Hb & _);
      [lia|lia|done|]. eauto.
Qed.

Lemma odd_board_fails_fast_witness :
  setup_board keep_order (init 3 3 false) = Raise IndexError
  ∧ play_game keep_order (init 3 3 false) = Raise IndexError.
Proof.
  destruct (odd_board_fails_fast keep_order 3 3 false) as (Hodd & _).
  - intros l. reflexivity.
  - lia.
  - lia.
  - destruct Hodd as (Hsetup & Hgame & _); [reflexivity|].
    split; [exact Hsetup|exact Hgame].
Defined.

(** C10.  In a reachable state the unmatched positions not yet in memory are
    even in number, so [play_turn] never finds exactly one of them; and a turn
    that counts a wrong guess flipped the first two of them, both unseen
    before and both in memory after. *)
Theorem unrevealed_even_in_game s :
  game_state s →
  Nat.Even (length (unrevealed_of s (get_unmatched_positions s)))
  ∧ (∀ p, unrevealed_of s (get_unmatched_positions s) ≠ [p])
  ∧ ∀ s', play_turn s = Ok (s', true) → moves s' ≠ moves s →
      ∃ p1 p2 rest,
        unrevealed_of s (get_unmatched_positions s) = p1 :: p2 :: rest
        ∧ p1 ≠ p2
        ∧ (p1 ∉ (revealed s).*1) ∧ (p2 ∉ (revealed s).*1)
        ∧ make_move s p1 p2 false = Ok s'
        ∧ p1 ∈ (revealed s').*1 ∧ p2 ∈ (revealed s').*1.
Proof.
  intros Hgs. pose proof (game_state_inv s Hgs) as Hinv.
  pose proof (unrevealed_even s Hinv) as Heven.
  split_and!; [done| |].
  - intros p Hp. rewrite Hp in Heven. destruct Heven as [n Hn]. simpl in Hn. lia.
  - intros s' Hturn Hmoves.
    destruct (play_turn_cases _ _ _ Hinv Hturn)
      as [(? & _)|(_ & _ & p1 & p2 & k & v1 & v2 & Hf)]; [done|].
    destruct (turn_sizes _ _ _ _ _ _ _ Hinv Hf) as (_ & _ & Hk).
    destruct Hf as [Hmove Hmf (Hp1 & Hp2 & Hne & Hm1 & Hm2) Hc].
    destruct k.
    + exfalso. apply Hmoves. rewrite (mf_moves _ _ _ _ _ _ _ Hmf).
      by rewrite decide_True by auto.
    + destruct Hc as ((_ & rest & Hu) & Hr1 & Hr2).
      exists p1, p2, rest. split_and!; try done.
      * rewrite (mf_revealed _ _ _ _ _ _ _ Hmf), !dict_set_keys. auto.
      * rewrite (mf_revealed _ _ _ _ _ _ _ Hmf), !dict_set_keys. auto.
Qed.

Lemma unrevealed_even_in_game_witness :
  Nat.Even (length (unrevealed_of demo_one_turn
                      (get_unmatched_positions demo_one_turn)))
  ∧ ∃ p1 p2, make_move demo_one_turn p1 p2 false = Ok demo_two_turns.
Proof.
  destruct (unrevealed_even_in_game demo_one_turn) as (Heven & _ & Hwrong).
  - apply demo_one_turn_state.
  - split; [exact Heven|].
    destruct (Hwrong demo_two_turns) as (p1 & p2 & _ & _ & _ & _ & _ & Hmove & _).
    + vm_compute. reflexivity.
    + vm_compute. discriminate.
    + exists p1, p2. exact Hmove.
Defined.

(** * Further properties of the code *)

(** ** Indexing at the bounds *)

Lemma getitem_in_range {A} (l : list A) (i : Z) :
  0 <= i < Z.of_nat (length l) →
  ∃ x, getitem l i = Ok x ∧ l !! Z.to_nat i = Some x.
Proof.
  intros Hi. destruct (lookup_lt_is_Some_2 l (Z.to_nat i)) as [x Hx]; [lia|].
  exists x. split; [|done]. rewrite <- (Z2Nat.id i) by lia.
  by apply getitem_lookup.
Qed.

Lemma getitem_wrap {A} (l : list A) (i : Z) :
  - Z.of_nat (length l) <= i < 0 →
  getitem l i = getitem l (i + Z.of_nat (length l)).
Proof.
  intros Hi. unfold getitem. rewrite (decide_True (P := i < 0)) by lia.
  by rewrite (decide_False (P := i + Z.of_nat (length l) < 0)) by lia.
Qed.

Lemma getitem_out_of_range {A} (l : list A) (i : Z) :
  ¬ (- Z.of_nat (length l) <= i < Z.of_nat (length l)) →
  getitem l i = Raise IndexError.
Proof.
  intros Hi. destruct (decide (i < 0)) as [Hneg|Hpos].
  - unfold getitem. rewrite (decide_True (P := i < 0)) by done.
    by rewrite decide_False by lia.
  - apply getitem_overflow. lia.
Qed.

(** ** Shape of the board in a game *)

Lemma game_state_shape s :
  game_state s →
  0 < rows s ∧ 0 < cols s
  ∧ total_cards s = rows s * cols s
  ∧ total_pairs s = (rows s * cols s) `div` 2
  ∧ length (board s) = Z.to_nat (rows s)
  ∧ Forall (λ r, length r = Z.to_nat (cols s)) (board s).
Proof.
  intros (shuffle & nrows & ncols & vb & s0 & (Hsh & (Hr & Hc & Hev) & Hsetup) & k & Hrun).
  destruct (setup_board_inv shuffle nrows ncols vb Hsh)
    as (s0' & Hs0' & _ & Er & Ec & Et & Ep & Hlen & Hrows & _); [lia|lia|done|].
  assert (s0' = s0) as -> by congruence. clear Hsetup Hs0'.
  destruct (run_static _ _ _ Hrun) as (-> & -> & -> & -> & ->).
  rewrite Er, Ec. split_and!; try done.
Qed.

Lemma symbol_in_range s p v :
  board_ok s → p ∈ all_positions (rows s) (cols s) →
  get_symbol s p = Ok v → 0 <= v < total_pairs s.
Proof.
  intros Hb [a Ha]%list_elem_of_lookup Hv.
  destruct (Forall2_lookup_l _ _ _ _ _ (bo_symbols s Hb) Ha) as (w & Hw & Hpw).
  assert (w = v) as -> by congruence.
  assert (v ∈ pair_sequence (total_pairs s)) as Hin.
  { rewrite <- (bo_perm s Hb). apply list_elem_of_lookup. eauto. }
  unfold pair_sequence in Hin. apply elem_of_app in Hin.
  rewrite !elem_of_seqZ in Hin. lia.
Qed.

Lemma board_row s row :
  game_state s → - rows s <= row < rows s →
  ∃ r, getitem (board s) row = Ok r ∧ length r = Z.to_nat (cols s).
Proof.
  intros Hgs Hrow.
  destruct (game_state_shape s Hgs) as (Hr & Hc & _ & _ & Hlen & Hrows).
  destruct (decide (row < 0)) as [Hneg|Hpos].
  - rewrite getitem_wrap by lia.
    destruct (getitem_in_range (board s) (row + Z.of_nat (length (board s))))
      as (r & Hr1 & Hr2); [lia|].
    exists r. split; [done|]. by eapply (proj1 (Forall_lookup _ _) Hrows).
  - destruct (getitem_in_range (board s) row) as (r & Hr1 & Hr2); [lia|].
    exists r. split; [done|]. by eapply (proj1 (Forall_lookup _ _) Hrows).
Qed.

Lemma get_symbol_off_board s p :
  game_state s → ¬ on_board s p → get_symbol s p = Raise IndexError.
Proof.
  intros Hgs Hout.
  destruct (game_state_shape s Hgs) as (Hr & Hc & _ & _ & Hlen & Hrows).
  unfold on_board in Hout. unfold get_symbol.
  destruct (decide (- rows s <= p.1 < rows s)) as [Hrow|Hrow].
  - destruct (board_row s p.1 Hgs Hrow) as (r & -> & Hlr). simpl.
    apply getitem_out_of_range. lia.
  - rewrite getitem_out_of_range by lia. done.
Qed.

Lemma get_symbol_wrap_row s row col :
  game_state s → - rows s <= row < 0 →
  get_symbol s (row, col) = get_symbol s (row + rows s, col).
Proof.
  intros Hgs Hneg.
  destruct (game_state_shape s Hgs) as (Hr & Hc & _ & _ & Hlen & Hrows).
  unfold get_symbol. simpl. rewrite (getitem_wrap (board s) row) by lia.
  by rewrite Hlen, Z2Nat.id by lia.
Qed.

Lemma get_symbol_wrap_col s row col :
  game_state s → - cols s <= col < 0 →
  get_symbol s (row, col) = get_symbol s (row, col + cols s).
Proof.
  intros Hgs Hneg.
  destruct (game_state_shape s Hgs) as (Hr & Hc & _ & _ & Hlen & Hrows).
  unfold get_symbol. simpl.
  destruct (decide (- rows s <= row < rows s)) as [Hrow|Hrow].
  - destruct (board_row s row Hgs Hrow) as (r & -> & Hlr). simpl.
    rewrite (getitem_wrap r col) by lia. by rewrite Hlr, Z2Nat.id by lia.
  - rewrite getitem_out_of_range by lia. done.
Qed.

Lemma get_symbol_in_grid s p :
  game_state s → p ∈ all_positions (rows s) (cols s) →
  ∃ v, get_symbol s p = Ok v ∧ 0 <= v < total_pairs s.
Proof.
  intros Hgs Hp. pose proof (game_state_inv s Hgs) as Hinv.
  destruct (symbol_defined s (inv_board s Hinv) _ Hp) as [v Hv].
  exists v. split; [done|]. by eapply symbol_in_range; [apply Hinv|..].
Qed.

Lemma get_symbol_on_board s p :
  game_state s → on_board s p → ∃ v, get_symbol s p = Ok v ∧ 0 <= v < total_pairs s.
Proof.
  intros Hgs [Hrow Hcol]. destruct p as [row col]. simpl in *.
  destruct (decide (row < 0)) as [Hr|Hr], (decide (col < 0)) as [Hc|Hc].
  - rewrite get_symbol_wrap_row, get_symbol_wrap_col by (done || lia).
    apply get_symbol_in_grid; [done|]. apply elem_of_all_positions. simpl. lia.
  - rewrite get_symbol_wrap_row by (done || lia).
    apply get_symbol_in_grid; [done|]. apply elem_of_all_positions. simpl. lia.
  - rewrite get_symbol_wrap_col by (done || lia).
    apply get_symbol_in_grid; [done|]. apply elem_of_all_positions. simpl. lia.
  - apply get_symbol_in_grid; [done|]. apply elem_of_all_positions. simpl. lia.
Qed.

(** X1.  [get_symbol] in a game.  Inside the grid it returns a symbol below
    [total_pairs]; a negative coordinate down to [-rows] (or [-cols]) counts
    from the end of its axis; any other coordinate raises [IndexError]. *)
Theorem get_symbol_bounds s row col :
  game_state s →
  (0 <= row < rows s → 0 <= col < cols s →
     ∃ v, get_symbol s (get_position row col) = Ok v ∧ 0 <= v < total_pairs s)
  ∧ (¬ on_board s (get_position row col) →
     get_symbol s (get_position row col) = Raise IndexError)
  ∧ (- rows s <= row < 0 →
     get_symbol s (get_position row col)
     = get_symbol s (get_position (row + rows s) col))
  ∧ (- cols s <= col < 0 →
     get_symbol s (get_position row col)
     = get_symbol s (get_position row (col + cols s))).
Proof.
  intros Hgs. unfold get_position. split_and!.
  - intros Hrow Hcol. apply get_symbol_in_grid; [done|].
    by apply elem_of_all_positions.
  - by apply get_symbol_off_board.
  - by apply get_symbol_wrap_row.
  - by apply get_symbol_wrap_col.
Qed.

Lemma get_symbol_bounds_witness :
  get_symbol demo_two_turns (get_position (-1) (-1)) = Ok 1
  ∧ get_symbol demo_two_turns (get_position 2 0) = Raise IndexError.
Proof.
  destruct (get_symbol_bounds demo_two_turns (-1) (-1)) as (_ & _ & Hrow & _).
  { apply demo_two_turns_state. }
  destruct (get_symbol_bounds demo_two_turns 2 0) as (_ & Hout & _).
  { apply demo_two_turns_state. }
  split.
  - rewrite Hrow by (simpl; lia). reflexivity.
  - apply Hout. unfold on_board. simpl. lia.
Defined.

(** ** The turn executor at its edges *)

(** X2.  In a game, [make_move] raises [IndexError] exactly when one of the two
    positions is off the board (negative coordinates counting from the end
    are on it). *)
Theorem make_move_raises_off_board s p1 p2 k :
  game_state s →
  make_move s p1 p2 k = Raise IndexError ↔ ¬ (on_board s p1 ∧ on_board s p2).
Proof.
  intros Hgs. split.
  - intros Hraise [Hb1 Hb2].
    destruct (get_symbol_on_board s p1 Hgs Hb1) as (v1 & Hv1 & _).
    destruct (get_symbol_on_board s p2 Hgs Hb2) as (v2 & Hv2 & _).
    destruct (make_move_fields s p1 p2 k v1 v2 Hv1 Hv2) as (s' & Hs' & _).
    congruence.
  - intros Hout. unfold make_move.
    destruct (decide (on_board s p1)) as [Hb1|Hb1].
    + destruct (get_symbol_on_board s p1 Hgs Hb1) as (v1 & -> & _). simpl.
      rewrite (get_symbol_off_board s p2) by tauto. done.
    + rewrite (get_symbol_off_board s p1) by done. done.
Qed.

Lemma make_move_raises_off_board_witness :
  make_move demo_one_turn (1, 0) (1, 2) false = Raise IndexError.
Proof.
  apply (make_move_raises_off_board demo_one_turn (1, 0) (1, 2) false).
  - apply demo_one_turn_state.
  - unfold on_board. simpl. lia.
Defined.

(** X3.  Whatever the state, a [make_move] that returns has stored the board
    symbol of each of its two positions in [revealed], has left the entry of
    every other position as it was, and has not touched the board. *)
Theorem make_move_remembers s p1 p2 k s' :
  make_move s p1 p2 k = Ok s' →
  ∃ v1 v2,
    get_symbol s p1 = Ok v1 ∧ get_symbol s p2 = Ok v2
    ∧ dict_get (revealed s') p1 = Some v1
    ∧ dict_get (revealed s') p2 = Some v2
    ∧ (∀ p, p ≠ p1 → p ≠ p2 → dict_get (revealed s') p = dict_get (revealed s) p)
    ∧ board s' = board s.
Proof.
  intros Hmove. destruct (make_move_facts _ _ _ _ _ Hmove) as (v1 & v2 & Hmf).
  pose proof (mf_sym1 _ _ _ _ _ _ _ Hmf) as H1.
  pose proof (mf_sym2 _ _ _ _ _ _ _ Hmf) as H2.
  exists v1, v2. rewrite (mf_revealed _ _ _ _ _ _ _ Hmf).
  split_and!; try done.
  - rewrite !dict_get_set. destruct (decide (p2 = p1)) as [->|_].
    + congruence.
    + by rewrite decide_True.
  - rewrite dict_get_set. by rewrite decide_True.
  - intros p Hp1 Hp2. rewrite !dict_get_set.
    rewrite decide_False by congruence. by rewrite decide_False by congruence.
  - apply Hmf.
Qed.

Lemma make_move_remembers_witness :
  dict_get (revealed demo_two_turns) (1, 0) = Some 0
  ∧ dict_get (revealed demo_two_turns) (0, 1) = dict_get (revealed demo_one_turn) (0, 1).
Proof.
  destruct (make_move_remembers demo_one_turn (1, 0) (1, 1) false demo_two_turns)
    as (v1 & v2 & Hv1 & _ & Hget & _ & Hother & _).
  - vm_compute. reflexivity.
  - split.
    + rewrite Hget. vm_compute in Hv1. injection Hv1 as <-. reflexivity.
    + apply Hother; discriminate.
Defined.

(** X4.  [make_move] does not check that its two positions are different
    cards.  In a game, flipping one unmatched card twice, as the same tuple
    or through its negative coordinates, is recorded as a match and never as
    a wrong guess; with the same tuple [matched] grows by one position only
    and its size becomes odd. *)
Theorem make_move_same_card s row col k :
  game_state s →
  0 <= row < rows s → 0 <= col < cols s →
  ¬ (row, col) ∈ matched s →
  (∃ s', make_move s (row, col) (row, col) k = Ok s'
       ∧ is_matched s' (row, col) = true
       ∧ size (matched s') = S (size (matched s))
       ∧ Nat.Odd (size (matched s'))
       ∧ moves s' = moves s)
  ∧ (∃ s', make_move s (row, col) (row - rows s, col - cols s) k = Ok s'
       ∧ is_matched s' (row, col) = true
       ∧ is_matched s' (row - rows s, col - cols s) = true
       ∧ moves s' = moves s).
Proof.
  intros Hgs Hrow Hcol Hm. pose proof (game_state_inv s Hgs) as Hinv.
  assert ((row, col) ∈ all_positions (rows s) (cols s)) as Hp
    by (by apply elem_of_all_positions).
  destruct (get_symbol_in_grid s _ Hgs Hp) as (v & Hv & _).
  assert (get_symbol s (row - rows s, col - cols s) = Ok v) as Hv'.
  { rewrite get_symbol_wrap_row, get_symbol_wrap_col by (done || lia).
    rewrite <- Hv. f_equal. f_equal; lia. }
  split.
  - destruct (make_move_fields s _ _ k v v Hv Hv) as (s' & Hs' & Hmf).
    pose proof (mf_matched _ _ _ _ _ _ _ Hmf) as Emat.
    pose proof (mf_moves _ _ _ _ _ _ _ Hmf) as Emov.
    rewrite decide_True in Emat by done. rewrite decide_True in Emov by done.
    assert (size (matched s') = S (size (matched s))) as Hsize.
    { rewrite Emat. rewrite <- (assoc_L (∪)), (idemp_L (∪)).
      rewrite size_union, size_singleton; [lia|]. by apply disjoint_singleton_r. }
    exists s'. split_and!; try done.
    + unfold is_matched. apply bool_decide_eq_true. rewrite Emat.
      rewrite !elem_of_union, elem_of_singleton. auto.
    + rewrite Hsize. apply Nat.Odd_succ. apply Hinv.
  - destruct (make_move_fields s _ _ k v v Hv Hv') as (s' & Hs' & Hmf).
    pose proof (mf_matched _ _ _ _ _ _ _ Hmf) as Emat.
    pose proof (mf_moves _ _ _ _ _ _ _ Hmf) as Emov.
    rewrite decide_True in Emat by done. rewrite decide_True in Emov by done.
    exists s'. unfold is_matched. rewrite !bool_decide_eq_true, Emat.
    rewrite !elem_of_union, !elem_of_singleton. split_and!; auto.
Qed.

Lemma make_move_same_card_witness :
  ∃ s', make_move demo_one_turn (0, 0) (0, 0) false = Ok s'
      ∧ Nat.Odd (size (matched s')).
Proof.
  destruct (make_move_same_card demo_one_turn 0 0 false)
    as ((s' & Hmove & _ & _ & Hodd & _) & _).
  - apply demo_one_turn_state.
  - simpl. lia.
  - simpl. lia.
  - vm_compute. discriminate.
  - exists s'. split; [exact Hmove|exact Hodd].
Defined.

(** ** The memory lookup *)

(** X5.  [find_known_match] returns the first entry of [revealed], in
    insertion order, that carries the symbol and is not matched, and [None]
    exactly when every entry with the symbol is matched.  Nothing excludes
    the position the caller is asking for. *)
Theorem find_known_match_first s v :
  (find_known_match s v = None ↔ ∀ q, (q, v) ∈ revealed s → q ∈ matched s)
  ∧ ∀ q, find_known_match s v = Some q ↔
         ∃ l1 l2, revealed s = l1 ++ (q, v) :: l2
                ∧ (q ∉ matched s)
                ∧ ∀ p, (p, v) ∈ l1 → p ∈ matched s.
Proof.
  split.
  - split; [intros H q; by apply find_known_match_None|].
    intros Hall. destruct (find_known_match s v) as [q|] eqn:E; [|done].
    apply find_known_match_Some in E as [Hin Hm]. by apply Hall in Hin.
  - intros q. unfold find_known_match.
    induction (revealed s) as [|[p w] l IH]; simpl.
    + split; [done|]. intros (l1 & l2 & Hl & _). by destruct l1.
    + rewrite filter_cons. simpl.
      destruct (decide (w = v ∧ p ∉ matched s)) as [[-> Hp]|Hno]; simpl.
      * split.
        -- intros [= ->]. exists [], l. split_and!; [done|done|].
           intros p' Hp'. by apply elem_of_nil in Hp'.
        -- intros (l1 & l2 & Hl & Hq & Hl1). destruct l1 as [|[p' w'] l1].
           ++ simpl in Hl. congruence.
           ++ simpl in Hl. injection Hl as -> -> _. exfalso. apply Hp.
              apply Hl1. apply list_elem_of_here.
      * rewrite IH. split.
        -- intros (l1 & l2 & -> & Hq & Hl1). exists ((p, w) :: l1), l2.
           split_and!; [done|done|].
           intros p' Hp'. apply elem_of_cons in Hp' as [Heq|Hp']; [|by apply Hl1].
           injection Heq as Hpp Hvw. subst p'.
           destruct (decide (p ∈ matched s)) as [|Hn]; [done|].
           exfalso. apply Hno. split; [congruence|done].
        -- intros (l1 & l2 & Hl & Hq & Hl1). destruct l1 as [|[p' w'] l1].
           ++ simpl in Hl. injection Hl as -> -> _. exfalso. by apply Hno.
           ++ simpl in Hl. injection Hl as -> -> ->. exists l1, l2.
              split_and!; [done|done|].
              intros p'' Hp''. apply Hl1. by apply list_elem_of_further.
Qed.

(** ** The unmatched positions *)

Lemma sorted_filter {A} (R : relation A) (P : A → Prop) `{∀ x, Decision (P x)}
    (l : list A) :
  StronglySorted R l → StronglySorted R (filter P l).
Proof.
  induction 1 as [|x l Hl IH Hx]; [constructor|].
  rewrite filter_cons. destruct (decide (P x)); [|done].
  constructor; [done|]. apply Forall_forall. intros y Hy.
  apply list_elem_of_filter in Hy as [_ Hy].
  by apply (proj1 (Forall_forall _ _) Hx).
Qed.

Lemma sorted_row (i : Z) (n : nat) (m : Z) :
  StronglySorted row_major_lt (seqZ m (Z.of_nat n) ≫= λ j, [(i, j)]).
Proof.
  revert m. induction n as [|n IH]; intros m; [constructor|].
  rewrite (seqZ_cons m) by lia. rewrite bind_cons. simpl.
  replace (Z.pred (Z.of_nat (S n))) with (Z.of_nat n) by lia.
  constructor; [apply IH|]. apply Forall_forall. intros p Hp.
  apply list_elem_of_bind in Hp as (j & Hp & Hj).
  apply list_elem_of_singleton in Hp as ->. apply elem_of_seqZ in Hj.
  right. simpl. lia.
Qed.

Lemma sorted_rows (ncols : Z) (n : nat) (m : Z) :
  StronglySorted row_major_lt
    (seqZ m (Z.of_nat n) ≫= λ i, seqZ 0 ncols ≫= λ j, [(i, j)]).
Proof.
  revert m. induction n as [|n IH]; intros m; [constructor|].
  rewrite (seqZ_cons m) by lia. rewrite bind_cons.
  replace (Z.pred (Z.of_nat (S n))) with (Z.of_nat n) by lia.
  apply StronglySorted_app_2; [| |apply IH].
  - intros p q Hp Hq.
    apply list_elem_of_bind in Hp as (j & Hp & _).
    apply list_elem_of_singleton in Hp as ->.
    apply list_elem_of_bind in Hq as (i & Hq & Hi).
    apply list_elem_of_bind in Hq as (j' & Hq & _).
    apply list_elem_of_singleton in Hq as ->. apply elem_of_seqZ in Hi.
    left. simpl. lia.
  - destruct (decide (0 <= ncols)) as [Hc|Hc].
    + rewrite <- (Z2Nat.id ncols) by done. apply sorted_row.
    + rewrite (seqZ_nil 0 ncols) by lia. constructor.
Qed.

Lemma sorted_all_positions nrows ncols :
  StronglySorted row_major_lt (all_positions nrows ncols).
Proof.
  unfold all_positions. destruct (decide (0 <= nrows)) as [Hr|Hr].
  - rewrite <- (Z2Nat.id nrows) by done. apply sorted_rows.
  - rewrite (seqZ_nil 0 nrows) by lia. constructor.
Qed.

(** X6.  In any state [get_unmatched_positions] lists, in row-major order
    and without repetition, exactly the grid positions that are not in
    [matched]. *)
Theorem unmatched_row_major s :
  StronglySorted row_major_lt (get_unmatched_positions s)
  ∧ NoDup (get_unmatched_positions s)
  ∧ ∀ p, p ∈ get_unmatched_positions s
         ↔ (0 <= p.1 < rows s ∧ 0 <= p.2 < cols s) ∧ p ∉ matched s.
Proof.
  unfold get_unmatched_positions. split_and!.
  - apply sorted_filter, sorted_all_positions.
  - apply NoDup_filter, NoDup_all_positions.
  - intros p. rewrite list_elem_of_filter, elem_of_all_positions. tauto.
Qed.

Lemma unmatched_length s :
  inv s →
  (length (get_unmatched_positions s) + size (matched s)
   = length (all_positions (rows s) (cols s)))%nat.
Proof.
  intros Hinv. unfold get_unmatched_positions.
  set (P := all_positions (rows s) (cols s)).
  rewrite <- (Permutation_length (filter_app_complement (λ p, p ∈ matched s) P)).
  rewrite length_app.
  assert (filter (λ p, p ∈ matched s) P ≡ₚ elements (matched s)) as ->.
  { apply NoDup_Permutation.
    - apply NoDup_filter, NoDup_all_positions.
    - apply NoDup_elements.
    - intros p. rewrite list_elem_of_filter, elem_of_elements. split; [tauto|].
      intros Hp. split; [done|]. by apply matched_in_grid. }
  unfold size, set_size. simpl. lia.
Qed.

(** X7.  In a game the unmatched positions are [total_cards] minus the
    matched ones in number, and the list is empty exactly when
    [len(self.matched) == self.total_cards]. *)
Theorem unmatched_count s :
  game_state s →
  Z.of_nat (length (get_unmatched_positions s))
  = total_cards s - Z.of_nat (size (matched s))
  ∧ (get_unmatched_positions s = [] ↔ Z.of_nat (size (matched s)) = total_cards s).
Proof.
  intros Hgs. pose proof (game_state_inv s Hgs) as Hinv.
  pose proof (unmatched_length s Hinv) as Hlen.
  pose proof (positions_length s (inv_board s Hinv)) as Htotal.
  split; [lia|]. split.
  - intros Hnil. rewrite Hnil in Hlen. simpl in Hlen. lia.
  - intros Hfull. apply length_zero_iff_nil. lia.
Qed.

Lemma unmatched_count_witness :
  Z.of_nat (length (get_unmatched_positions demo_two_turns)) = 4.
Proof.
  destruct (unmatched_count demo_two_turns) as (Hlen & _).
  - apply demo_two_turns_state.
  - rewrite Hlen. reflexivity.
Defined.

(** ** The decision policy *)

Lemma known_turn s p q :
  inv s → known_choice s p q →
  ∃ s' v, play_turn s = Ok (s', true) ∧ move_facts s s' p q true v v
        ∧ turn_facts s s' p q true v v.
Proof.
  intros Hinv Hk.
  destruct (known_choice_facts s p q Hinv Hk) as (Hlegal & _ & _ & v & Hv1 & Hv2).
  destruct Hlegal as (Hp & _ & _ & Hpm & _).
  assert (Z.of_nat (size (matched s)) ≠ total_cards s) as Hne.
  { intros Heq. apply Hpm. by apply complete_matched. }
  destruct (play_turn_active s Hinv Hne) as (s' & p1 & p2 & k & v1 & v2 & Ht & Hf).
  pose proof Hf as [_ Hmf _ Hc]. destruct k.
  - destruct Hc as (Hk' & Hv & _). unfold known_choice in Hk, Hk'.
    assert (p1 = p ∧ p2 = q) as [-> ->] by (split; congruence).
    assert (v1 = v) as Hv' by (destruct Hmf; congruence). subst v1 v2.
    exists s', v. done.
  - destruct Hc as ((Hnone & _) & _). unfold known_choice in Hk. congruence.
Qed.

(** X8.  The policy never explores while memory holds a pair: when, in a
    game, two different unmatched positions are remembered with the same
    symbol, [play_turn] plays a known match, which flips no new card, counts
    no wrong guess and adds one to [perfect_matches]. *)
Theorem remembered_pair_is_claimed s p q v :
  game_state s →
  p ≠ q → p ∉ matched s → q ∉ matched s →
  dict_get (revealed s) p = Some v → dict_get (revealed s) q = Some v →
  ∃ p1 p2 s',
    known_choice s p1 p2
    ∧ play_turn s = Ok (s', true)
    ∧ revealed s' = revealed s
    ∧ moves s' = moves s
    ∧ perfect_matches s' = perfect_matches s + 1.
Proof.
  intros Hgs Hne Hpm Hqm Hp Hq. pose proof (game_state_inv s Hgs) as Hinv.
  assert (∀ x w, dict_get (revealed s) x = Some w → x ∉ matched s →
                 x ∈ get_unmatched_positions s) as Hin.
  { intros x w Hx Hxm. apply elem_of_unmatched. split; [|done].
    apply (inv_keys_pos s Hinv). apply dict_get_Some_elem in Hx.
    apply list_elem_of_fmap. by exists (x, w). }
  destruct (known_match_scan s (get_unmatched_positions s)) as [[p1 p2]|] eqn:Escan.
  - destruct (known_turn s p1 p2 Hinv Escan) as (s' & w & Hturn & Hmf & Hf).
    pose proof (turn_keys_iff _ _ _ _ _ _ _ Hf) as Hiff.
    destruct Hf as [_ _ (Hp1 & Hp2 & Hne' & Hm1 & Hm2) Hc].
    destruct (move_revealed_cases s s' p1 p2 true w w Hinv Hmf Hne' Hiff)
      as [(_ & _ & Hrev)|(Hout & _)]; [|tauto].
    exists p1, p2, s'. split_and!; try done.
    + rewrite (mf_moves _ _ _ _ _ _ _ Hmf). by rewrite decide_True.
    + rewrite (mf_perfect _ _ _ _ _ _ _ Hmf). by rewrite decide_True.
  - exfalso.
    destruct (known_match_scan_None s _ p v Escan (Hin _ _ Hp Hpm) Hp) as [Hno|Hsp].
    + apply Hpm. eapply find_known_match_None; [done|]. by apply dict_get_Some_elem.
    + destruct (known_match_scan_None s _ q v Escan (Hin _ _ Hq Hqm) Hq) as [Hno|Hsq].
      * apply Hqm. eapply find_known_match_None; [done|]. by apply dict_get_Some_elem.
      * congruence.
Qed.

Lemma remembered_pair_is_claimed_witness :
  ∃ p1 p2 s', known_choice demo_two_turns p1 p2
            ∧ play_turn demo_two_turns = Ok (s', true)
            ∧ moves s' = 2.
Proof.
  destruct (remembered_pair_is_claimed demo_two_turns (0, 0) (1, 0) 0)
    as (p1 & p2 & s' & Hk & Hturn & _ & Hmoves & _).
  - apply demo_two_turns_state.
  - discriminate.
  - vm_compute. discriminate.
  - vm_compute. discriminate.
  - reflexivity.
  - reflexivity.
  - exists p1, p2, s'. split; [exact Hk|]. split; [exact Hturn|exact Hmoves].
Defined.

(** X9.  In a game [play_turn] never raises; it returns [False] exactly when
    all cards are matched, then leaving the state as it is, so the last
    [return False] of the function, after the exploring branches, is not
    reached with cards left. *)
Theorem play_turn_never_raises s :
  game_state s →
  ∃ s' b, play_turn s = Ok (s', b)
        ∧ game_state s'
        ∧ (b = false ↔ Z.of_nat (size (matched s)) = total_cards s)
        ∧ (b = false → s' = s ∧ get_unmatched_positions s = [])
        ∧ (b = true → ∃ p1 p2 k, make_move s p1 p2 k = Ok s' ∧ p1 ≠ p2
                                ∧ (p1 ∉ matched s) ∧ (p2 ∉ matched s)).
Proof.
  intros Hgs. pose proof (game_state_inv s Hgs) as Hinv.
  destruct (decide (Z.of_nat (size (matched s)) = total_cards s)) as [Heq|Hne].
  - exists s, false. split; [by apply play_turn_complete|].
    split_and!; try done.
    intros _. split; [done|].
    pose proof (unmatched_length s Hinv) as Hlen.
    pose proof (positions_length s (inv_board s Hinv)) as Htotal.
    apply length_zero_iff_nil. lia.
  - destruct (play_turn_active s Hinv Hne) as (s' & p1 & p2 & k & v1 & v2 & Ht & Hf).
    exists s', true. split; [done|]. split_and!; try done.
    + by eapply game_state_step.
    + intros _. destruct Hf as [Hmove _ (_ & _ & Hd & Hm1 & Hm2) _].
      exists p1, p2, k. done.
Qed.

Lemma play_turn_never_raises_witness :
  ∃ s', play_turn demo_two_turns = Ok (s', true) ∧ game_state s'.
Proof.
  destruct (play_turn_never_raises demo_two_turns)
    as (s' & b & Hturn & Hgs & Hb & _).
  - apply demo_two_turns_state.
  - destruct b.
    + exists s'. split; [exact Hturn|exact Hgs].
    + exfalso. destruct Hb as [Hb _]. specialize (Hb eq_refl).
      vm_compute in Hb. discriminate Hb.
Defined.

Lemma known_match_scan_empty_memory s U :
  revealed s = [] → known_match_scan s U = None.
Proof. intros Hrev. induction U as [|p U IH]; simpl; [done|]. by rewrite Hrev. Qed.

Lemma filter_all {A} (P : A → Prop) `{∀ x, Decision (P x)} (l : list A) :
  (∀ x, x ∈ l → P x) → filter P l = l.
Proof.
  induction l as [|x l IH]; intros Hall; [done|].
  rewrite filter_cons, decide_True by (apply Hall, list_elem_of_here).
  rewrite IH; [done|]. intros y Hy. by apply Hall, list_elem_of_further.
Qed.

(** X10.  [play_turn] depends on [setup_board] having run: on a simulator
    fresh from [__init__], with positive dimensions, it raises [IndexError]
    (from the empty board, or on the 1x1 board from the empty list of known
    cards). *)
Theorem play_turn_before_setup nrows ncols vb :
  0 < nrows → 0 < ncols →
  play_turn (init nrows ncols vb) = Raise IndexError.
Proof.
  intros Hr Hc. unfold play_turn.
  assert (Z.of_nat (size (matched (init nrows ncols vb)))
          ≠ total_cards (init nrows ncols vb)) as Hne.
  { change (matched (init nrows ncols vb)) with (∅ : gset pos).
    rewrite size_empty. simpl. nia. }
  rewrite decide_False by done.
  rewrite known_match_scan_empty_memory by done.
  assert (get_unmatched_positions (init nrows ncols vb) = all_positions nrows ncols)
    as ->.
  { unfold get_unmatched_positions. simpl. apply filter_all.
    intros p _. apply not_elem_of_empty. }
  assert (unrevealed_of (init nrows ncols vb) (all_positions nrows ncols)
          = all_positions nrows ncols) as ->.
  { unfold unrevealed_of. simpl. apply filter_all. intros p _. apply not_elem_of_nil. }
  assert ((0, 0) ∈ all_positions nrows ncols) as H0
    by (apply elem_of_all_positions; simpl; lia).
  destruct (all_positions nrows ncols) as [|p1 [|p2 rest]].
  - by apply elem_of_nil in H0.
  - simpl. done.
  - unfold make_move.
    assert (get_symbol (init nrows ncols vb) p1 = Raise IndexError) as ->; [|done].
    unfold get_symbol. change (board (init nrows ncols vb)) with (@nil (list Z)).
    rewrite getitem_out_of_range by (simpl; lia). done.
Qed.

Lemma play_turn_before_setup_witness :
  play_turn (init 1 1 false) = Raise IndexError
  ∧ play_turn (init 4 4 true) = Raise IndexError.
Proof.
  split.
  - apply (play_turn_before_setup 1 1 false); lia.
  - apply (play_turn_before_setup 4 4 true); lia.
Defined.

(** ** The game loop and whole games *)

Lemma play_turn_false s s' : play_turn s = Ok (s', false) → s' = s.
Proof.
  assert (∀ p1 p2 k, (s1 ← make_move s p1 p2 k; Ok (s1, true)) = Ok (s', false) →
          s' = s) as Hmove.
  { intros p1 p2 k H. by apply bind_Ok in H as (s1 & _ & [=]). }
  unfold play_turn.
  destruct (decide _) as [_|_]; [by intros [= <-]|].
  destruct (known_match_scan _ _) as [[p q]|]; [by apply Hmove|].
  destruct (unrevealed_of _ _) as [|p1 [|p2 rest]]; [by intros [= <-]| |by apply Hmove].
  intros H. apply bind_Ok in H as (p2 & _ & H). by eapply Hmove.
Qed.

Lemma run_prefix k s s' j :
  run k s s' → (j ≤ k)%nat → ∃ s1, run j s s1.
Proof.
  intros Hrun. revert j. induction Hrun as [s|k s s1 s2 Hturn Hrun IH]; intros j Hj.
  - assert (j = 0%nat) as -> by lia. exists s. constructor.
  - destruct j as [|j]; [exists s; constructor|].
    destruct (IH j) as [s3 Hs3]; [lia|]. exists s3. by eapply run_turn.
Qed.

Lemma run_trans k1 k2 s1 s2 s3 :
  run k1 s1 s2 → run k2 s2 s3 → run (k1 + k2) s1 s3.
Proof.
  induction 1 as [s|k s sa sb Hturn Hrun IH]; intros H2; [done|].
  simpl. eapply run_turn; [done|]. by apply IH.
Qed.

Lemma game_loop_sound n s turn_count :
  (Z.to_nat (1001 - turn_count) ≤ n)%nat → 0 <= turn_count <= 1000 →
  match game_loop s turn_count with
  | Ok (s', t) =>
      turn_count <= t <= 1001 ∧ run (Z.to_nat (t - turn_count)) s s'
      ∧ (t <= 1000 → play_turn s' = Ok (s', false))
  | Raise e =>
      ∃ k s', turn_count + Z.of_nat k <= 1000 ∧ run k s s' ∧ play_turn s' = Raise e
  end.
Proof.
  revert s turn_count. induction n as [|n IH]; intros s tc Hn Htc; [lia|].
  rewrite game_loop_eq. destruct (play_turn s) as [[s1 [|]]|e] eqn:Hturn.
  - destruct (decide (1000 < tc + 1)) as [Hcap|Hgo].
    + split; [lia|]. split; [|lia].
      replace (Z.to_nat (tc + 1 - tc)) with 1%nat by lia.
      eapply run_turn; [done|constructor].
    + specialize (IH s1 (tc + 1)).
      destruct (game_loop s1 (tc + 1)) as [[s' t]|e].
      * destruct IH as (Ht & Hrun & Hlast); [lia|lia|].
        split; [lia|]. split; [|done].
        replace (Z.to_nat (t - tc)) with (S (Z.to_nat (t - (tc + 1)))) by lia.
        by eapply run_turn.
      * destruct IH as (k & s' & Hk & Hrun & Hraise); [lia|lia|].
        exists (S k), s'. split; [lia|]. split; [by eapply run_turn|done].
  - apply play_turn_false in Hturn as Hs. subst s1.
    split; [lia|]. split; [|done].
    replace (Z.to_nat (tc - tc)) with 0%nat by lia. constructor.
  - exists 0%nat, s. split; [lia|]. split; [constructor|done].
Qed.

(** X11.  Whatever the state it starts from, the loop of [play_game] calls
    [play_turn] until it returns [False] or raises, and gives up after the
    1001st turn: the final [turn_count] is at most 1001, the final state is
    reached by that many turns, and a count of at most 1000 means the last
    call returned [False]. *)
Theorem game_loop_bounded s :
  match game_loop s 0 with
  | Ok (s', t) =>
      0 <= t <= 1001 ∧ run (Z.to_nat t) s s'
      ∧ (t <= 1000 → play_turn s' = Ok (s', false))
  | Raise e =>
      ∃ k s', Z.of_nat k <= 1000 ∧ run k s s' ∧ play_turn s' = Raise e
  end.
Proof.
  pose proof (game_loop_sound 1001 s 0) as H.
  destruct (game_loop s 0) as [[s' t]|e].
  - destruct H as (Ht & Hrun & Hlast); [lia|lia|].
    rewrite Z.sub_0_r in Hrun. done.
  - destruct H as (k & s' & Hk & Hrun & Hraise); [lia|lia|].
    exists k, s'. split; [lia|done].
Qed.

Lemma run_counters k s s' :
  inv s → run k s s' →
  2 * moves s' - Z.of_nat (length (revealed s'))
  <= 2 * moves s - Z.of_nat (length (revealed s))
  ∧ 2 * perfect_matches s' - Z.of_nat (size (matched s'))
    <= 2 * perfect_matches s - Z.of_nat (size (matched s)).
Proof.
  intros Hinv Hrun. induction Hrun as [s|k s s1 s2 Hturn Hrun IH]; [lia|].
  pose proof (play_turn_inv _ _ _ Hinv Hturn) as Hinv1.
  destruct (play_turn_cases _ _ _ Hinv Hturn)
    as [(? & _)|(_ & _ & p1 & p2 & kd & v1 & v2 & Hf)]; [done|].
  destruct (IH Hinv1) as [IH1 IH2].
  destruct (turn_sizes _ _ _ _ _ _ _ Hinv Hf) as (Hm & Hr & Hk).
  pose proof (mf_moves _ _ _ _ _ _ _ (tf_fields _ _ _ _ _ _ _ Hf)) as Emov.
  pose proof (mf_perfect _ _ _ _ _ _ _ (tf_fields _ _ _ _ _ _ _ Hf)) as Eperf.
  destruct kd.
  - rewrite decide_True in Hm by auto. rewrite decide_True in Emov by auto.
    rewrite decide_True in Eperf by auto. lia.
  - destruct (decide (v1 = v2)); lia.
Qed.

Lemma game_state_counters s :
  game_state s →
  0 <= 2 * moves s <= Z.of_nat (length (revealed s))
  ∧ 0 <= 2 * perfect_matches s <= Z.of_nat (size (matched s))
  ∧ Z.of_nat (length (revealed s)) <= total_cards s
  ∧ Z.of_nat (size (matched s)) <= total_cards s
  ∧ total_cards s = 2 * total_pairs s.
Proof.
  intros Hgs. pose proof (game_state_inv s Hgs) as Hinv.
  destruct Hgs as (shuffle & nrows & ncols & vb & s0 & (Hsh & (Hr & Hc & Hev) & Hsetup)
                   & k & Hrun).
  destruct (setup_board_inv shuffle nrows ncols vb Hsh)
    as (s0' & Hs0' & Hinv0 & _ & _ & _ & _ & _ & _ & _ & Hrev & Hmat & Hmov & Hperf & _);
    [lia|lia|done|].
  assert (s0' = s0) as -> by congruence. clear Hsetup Hs0'.
  destruct (run_counters _ _ _ Hinv0 Hrun) as [H1 H2].
  rewrite Hrev, Hmat, Hmov, Hperf, size_empty in *. simpl in H1, H2.
  pose proof (inv_moves s Hinv). pose proof (inv_perfect s Hinv).
  pose proof (positions_length s (inv_board s Hinv)) as Hlen.
  pose proof (size_matched_le s Hinv). pose proof (length_revealed_le s Hinv).
  pose proof (bo_pairs s (inv_board s Hinv)) as Hpairs.
  pose proof (bo_even s (inv_board s Hinv)) as Heven.
  apply Z.even_spec in Heven as [n Hn].
  rewrite Hn, (Z.mul_comm 2 n), Z.div_mul in Hpairs by lia.
  split_and!; lia.
Qed.

(** X12.  In every state of a game the wrong guesses are at most half the
    cards seen and the perfect matches at most half the cards matched; so
    neither counter exceeds [total_pairs]. *)
Theorem counters_bounded s :
  game_state s →
  0 <= 2 * moves s <= Z.of_nat (length (revealed s))
  ∧ 0 <= 2 * perfect_matches s <= Z.of_nat (size (matched s))
  ∧ moves s <= total_pairs s
  ∧ perfect_matches s <= total_pairs s.
Proof.
  intros Hgs. destruct (game_state_counters s Hgs) as (H1 & H2 & H3 & H4 & H5).
  split_and!; lia.
Qed.

Lemma counters_bounded_witness :
  moves demo_two_turns <= total_pairs demo_two_turns.
Proof.
  destruct (counters_bounded demo_two_turns) as (_ & _ & Hmoves & _).
  - apply demo_two_turns_state.
  - exact Hmoves.
Defined.

Lemma play_game_of_loop shuffle s s0 s' t :
  setup_board shuffle s = Ok s0 → game_loop s0 0 = Ok (s', t) →
  play_game_turns shuffle s = Ok (s', t) ∧ play_game shuffle s = Ok (s', moves s').
Proof.
  intros Hsetup Hloop. unfold play_game_turns, play_game. rewrite Hsetup.
  unfold mbind, result_bind. by rewrite Hloop.
Qed.

Lemma valid_game_outcome shuffle nrows ncols vb :
  is_shuffle shuffle → valid_dims nrows ncols →
  ∃ s0 k sk,
    fresh_game shuffle nrows ncols vb s0
    ∧ run k s0 sk ∧ play_turn sk = Ok (sk, false)
    ∧ Z.of_nat (size (matched sk)) = total_cards sk
    ∧ Z.of_nat k = moves sk + total_pairs sk
    ∧ Z.of_nat k <= nrows * ncols
    ∧ ((Z.of_nat k <= 1000 ∧ game_loop s0 0 = Ok (sk, Z.of_nat k))
       ∨ (1000 < Z.of_nat k ∧ ∃ s1, run 1001 s0 s1 ∧ game_loop s0 0 = Ok (s1, 1001))).
Proof.
  intros Hsh Hdims. pose proof Hdims as (Hr & Hc & Hev).
  destruct (setup_board_inv shuffle nrows ncols vb Hsh) as
    (s0 & Hsetup & Hinv & _ & _ & _ & _ & _ & _ & _ & Hrev & Hmat & Hmov & _);
    [lia|lia|done|].
  destruct (game_terminates s0 Hinv) as (k & sk & Hrun & Hk & Hinvk & Hdone & Hlast).
  exists s0, k, sk. split_and!; try done.
  - exact (turns_of_a_complete_game k s0 sk Hinv Hmat Hmov Hrun Hdone).
  - pose proof (positions_length s0 (inv_board s0 Hinv)) as Hlen.
    destruct (setup_board_inv shuffle nrows ncols vb Hsh)
      as (s0' & Hs0' & _ & _ & _ & Et0 & _); [lia|lia|done|].
    assert (s0' = s0) as -> by congruence.
    unfold remaining in Hk. rewrite Hrev, Hmat, size_empty in Hk. simpl in Hk. lia.
  - destruct (decide (Z.of_nat k <= 1000)) as [Hle|Hgt].
    + left. split; [done|]. by rewrite (game_loop_finish k s0 sk 0 Hrun Hlast) by lia.
    + right. split; [lia|].
      destruct (run_prefix k s0 sk 1001 Hrun) as [s1 Hs1]; [lia|].
      exists s1. split; [done|]. apply (game_loop_cap 1000 s0 s1 0 Hs1). lia.
Qed.

Lemma play_game_valid shuffle nrows ncols vb :
  is_shuffle shuffle → valid_dims nrows ncols →
  ∃ s t,
    play_game_turns shuffle (init nrows ncols vb) = Ok (s, t)
    ∧ play_game shuffle (init nrows ncols vb) = Ok (s, moves s)
    ∧ game_state s
    ∧ 0 <= moves s <= (nrows * ncols) `div` 2
    ∧ 0 <= t <= 1001.
Proof.
  intros Hsh Hdims. pose proof Hdims as (Hr & Hc & Hev).
  destruct (valid_game_outcome shuffle nrows ncols vb Hsh Hdims)
    as (s0 & k & sk & Hfresh & Hrun & _ & _ & _ & _ & Hloop).
  pose proof Hfresh as (_ & _ & Hsetup).
  assert (∀ s, reachable s0 s → game_state s ∧ 0 <= moves s <= (nrows * ncols) `div` 2)
    as Hstate.
  { intros s Hreach.
    assert (game_state s) as Hgs by (exists shuffle, nrows, ncols, vb, s0; done).
    split; [done|]. destruct (game_state_counters s Hgs) as (H1 & _ & H3 & _ & H5).
    destruct (game_state_shape s Hgs) as (_ & _ & Ht & Hp & _).
    destruct Hreach as [j Hj]. destruct (run_static _ _ _ Hj) as (Er & Ec & _).
    destruct (setup_board_inv shuffle nrows ncols vb Hsh)
      as (s0' & Hs0' & _ & Er0 & Ec0 & _); [lia|lia|apply Hdims|].
    assert (s0' = s0) as -> by congruence.
    rewrite Er, Ec, Er0, Ec0 in Hp. rewrite <- Hp. lia. }
  destruct Hloop as [(Hk & Hloop)|(Hk & s1 & Hs1 & Hloop)].
  - destruct (play_game_of_loop _ _ _ _ _ Hsetup Hloop) as [Ht Hg].
    destruct (Hstate sk) as [Hgs Hm]; [by exists k|].
    exists sk, (Z.of_nat k). split_and!; try done; lia.
  - destruct (play_game_of_loop _ _ _ _ _ Hsetup Hloop) as [Ht Hg].
    destruct (Hstate s1) as [Hgs Hm]; [by exists 1001%nat|].
    exists s1, 1001. split_and!; try done; lia.
Qed.

(** X13.  On a valid board [play_game] never raises: it returns the [moves]
    of a state of the game, between 0 and [total_pairs], after at most 1001
    turns. *)
Theorem play_game_returns shuffle nrows ncols vb :
  is_shuffle shuffle → valid_dims nrows ncols →
  ∃ s t,
    play_game_turns shuffle (init nrows ncols vb) = Ok (s, t)
    ∧ play_game shuffle (init nrows ncols vb) = Ok (s, moves s)
    ∧ game_state s
    ∧ 0 <= moves s <= (nrows * ncols) `div` 2
    ∧ 0 <= t <= 1001.
Proof. apply play_game_valid. Qed.

Lemma play_game_returns_witness :
  ∃ s, play_game keep_order (init 2 2 false) = Ok (s, moves s)
     ∧ 0 <= moves s <= 2.
Proof.
  destruct (play_game_returns keep_order 2 2 false)
    as (s & t & _ & Hgame & _ & Hmoves & _).
  - intros l. reflexivity.
  - unfold valid_dims. split; [lia|]. split; [lia|reflexivity].
  - exists s. split; [exact Hgame|exact Hmoves].
Defined.



(** ** Playing again, and boards without cells *)

Lemma setup_board_state shuffle s :
  is_shuffle shuffle → 0 <= rows s → 0 <= cols s →
  total_pairs s = (rows s * cols s) `div` 2 →
  Z.even (rows s * cols s) = true →
  ∃ b, setup_board shuffle s = Ok (set_board s b)
     ∧ concat b = shuffle (pair_sequence (total_pairs s)).
Proof.
  intros Hsh Hr Hc Hp Hev. unfold setup_board.
  fold (pair_sequence (total_pairs s)).
  set (pairs := shuffle (pair_sequence (total_pairs s))).
  assert (length pairs = (Z.to_nat (rows s) * Z.to_nat (cols s))%nat) as Hlen.
  { unfold pairs. rewrite (Permutation_length (Hsh _)), length_pair_sequence, Hp.
    apply Z.even_spec in Hev as [k Hk]. rewrite Hk.
    rewrite (Z.mul_comm 2 k), Z.div_mul by lia. nia. }
  destruct (fill_board_ok pairs (cols s) (seqZ 0 (rows s)) [] 0)
    as (b & Hb & Hl & Hf & Hcat).
  { rewrite length_seqZ. simpl. lia. }
  change (Z.of_nat 0) with 0 in Hb. rewrite Hb. simpl.
  exists b. split; [done|]. rewrite length_seqZ in Hcat.
  rewrite Hcat, drop_0, <- Hlen. apply firstn_all.
Qed.

(** X15.  [setup_board] replaces the board only: [revealed], [matched] and
    the counters are not reset.  So a second [play_game] on a simulator
    whose game is finished deals a new board, plays no turn and returns the
    wrong guesses of the first game. *)
Theorem play_game_again shuffle shuffle' nrows ncols vb s m :
  is_shuffle shuffle → is_shuffle shuffle' →
  valid_dims nrows ncols → nrows * ncols <= 1000 →
  play_game shuffle (init nrows ncols vb) = Ok (s, m) →
  ∃ s', play_game_turns shuffle' s = Ok (s', 0)
      ∧ play_game shuffle' s = Ok (s', m)
      ∧ concat (board s') = shuffle' (pair_sequence ((nrows * ncols) `div` 2))
      ∧ revealed s' = revealed s ∧ matched s' = matched s
      ∧ perfect_matches s' = perfect_matches s.
Proof.
  intros Hsh Hsh' Hdims Hsmall Hgame. pose proof Hdims as (Hr & Hc & Hev).
  destruct (valid_game_outcome shuffle nrows ncols vb Hsh Hdims)
    as (s0 & k & sk & Hfresh & Hrun & Hlast & Hdone & _ & Hbound & Hloop).
  pose proof Hfresh as (_ & _ & Hsetup).
  destruct Hloop as [(_ & Hloop)|(Hgt & _)]; [|lia].
  destruct (play_game_of_loop _ _ _ _ _ Hsetup Hloop) as [_ Hg].
  rewrite Hg in Hgame. injection Hgame as <- <-. clear Hg.
  destruct (setup_board_inv shuffle nrows ncols vb Hsh)
    as (s0' & Hs0' & _ & Er0 & Ec0 & _ & Ep0 & _); [lia|lia|done|].
  assert (s0' = s0) as -> by congruence. clear Hs0'.
  destruct (run_static _ _ _ Hrun) as (Er & Ec & _ & Ep & _).
  destruct (setup_board_state shuffle' sk Hsh') as (b & Hb & Hcat).
  { rewrite Er, Er0. lia. }
  { rewrite Ec, Ec0. lia. }
  { rewrite Ep, Ep0, Er, Er0, Ec, Ec0. done. }
  { rewrite Er, Er0, Ec, Ec0. done. }
  assert (play_turn (set_board sk b) = Ok (set_board sk b, false)) as Hturn
    by (by apply play_turn_complete).
  assert (game_loop (set_board sk b) 0 = Ok (set_board sk b, 0)) as Hloop'
    by (by rewrite game_loop_eq, Hturn).
  destruct (play_game_of_loop _ _ _ _ _ Hb Hloop') as [Ht Hg].
  exists (set_board sk b). split_and!; try done.
  simpl. by rewrite Hcat, Ep, Ep0.
Qed.

Lemma play_game_again_witness :
  ∃ s s', play_game keep_order (init 2 2 false) = Ok (s, 2)
        ∧ play_game reverse s = Ok (s', 2)
        ∧ play_game_turns reverse s = Ok (s', 0).
Proof.
  assert (∃ s, play_game keep_order (init 2 2 false) = Ok (s, 2)) as [s Hs]
    by (eexists; vm_compute; reflexivity).
  destruct (play_game_again keep_order reverse 2 2 false s 2)
    as (s' & Hturns & Hgame & _).
  - intros l. reflexivity.
  - intros l. apply reverse_Permutation.
  - unfold valid_dims. split; [lia|]. split; [lia|reflexivity].
  - lia.
  - exact Hs.
  - exists s, s'. split; [exact Hs|]. split; [exact Hgame|exact Hturns].
Defined.

Lemma fill_board_no_cols pairs ncols rs b idx :
  ncols <= 0 →
  fill_board pairs ncols rs b idx = Ok (b ++ replicate (length rs) [], idx).
Proof.
  intros Hc. revert b. induction rs as [|r rs IH]; intros b; simpl.
  - by rewrite app_nil_r.
  - rewrite (seqZ_nil 0 ncols) by done. simpl. rewrite IH.
    by rewrite <- app_assoc.
Qed.

Lemma all_positions_degenerate nrows ncols :
  nrows <= 0 ∨ ncols <= 0 → all_positions nrows ncols = [].
Proof.
  intros Hd. destruct (all_positions nrows ncols) as [|p l] eqn:E; [done|exfalso].
  assert (p ∈ all_positions nrows ncols) as Hp by (rewrite E; apply list_elem_of_here).
  apply elem_of_all_positions in Hp. lia.
Qed.

Lemma concat_replicate_nil {A} (n : nat) : concat (replicate n (@nil A)) = [].
Proof. induction n as [|n IH]; [done|]. simpl. exact IH. Qed.

(** X16.  With a dimension that is zero or negative the loops of
    [setup_board] index nothing: whatever the parity of [rows * cols] and
    whatever the shuffle, no exception is raised, the board has no cell, and
    [play_game] returns 0 without playing a turn. *)
Theorem board_without_cells shuffle nrows ncols vb :
  nrows <= 0 ∨ ncols <= 0 →
  ∃ s0, setup_board shuffle (init nrows ncols vb) = Ok s0
      ∧ concat (board s0) = []
      ∧ get_unmatched_positions s0 = []
      ∧ play_game_turns shuffle (init nrows ncols vb) = Ok (s0, 0)
      ∧ play_game shuffle (init nrows ncols vb) = Ok (s0, 0).
Proof.
  intros Hd.
  assert (∃ b, setup_board shuffle (init nrows ncols vb)
               = Ok (set_board (init nrows ncols vb) b) ∧ concat b = [])
    as (b & Hsetup & Hcat).
  { unfold setup_board. simpl. destruct (decide (nrows <= 0)) as [Hr|Hr].
    - rewrite (seqZ_nil 0 nrows) by done. simpl. by exists [].
    - rewrite fill_board_no_cols by lia. simpl.
      eexists. split; [done|]. apply concat_replicate_nil. }
  set (s0 := set_board (init nrows ncols vb) b) in *.
  assert (get_unmatched_positions s0 = []) as Hnone.
  { unfold get_unmatched_positions. simpl.
    by rewrite all_positions_degenerate. }
  assert (play_turn s0 = Ok (s0, false)) as Hturn.
  { unfold play_turn. rewrite Hnone. simpl. by destruct (decide _). }
  assert (game_loop s0 0 = Ok (s0, 0)) as Hloop by (by rewrite game_loop_eq, Hturn).
  destruct (play_game_of_loop _ _ _ _ _ Hsetup Hloop) as [Ht Hg].
  exists s0. split_and!; done.
Qed.

Lemma board_without_cells_witness :
  ∃ s0, setup_board keep_order (init (-1) (-1) false) = Ok s0
      ∧ play_game keep_order (init (-1) (-1) false) = Ok (s0, 0).
Proof.
  destruct (board_without_cells keep_order (-1) (-1) false)
    as (s0 & Hsetup & _ & _ & _ & Hgame).
  - left. lia.
  - exists s0. split; [exact Hsetup|exact Hgame].
Defined.

(** ** The batch runner *)

Lemma foldl_min_spec (a : Z) (l : list Z) :
  foldl Z.min a l ∈ a :: l ∧ Forall (λ x, foldl Z.min a l <= x) (a :: l).
Proof.
  revert a. induction l as [|x l IH]; intros a; simpl.
  - split; [apply list_elem_of_here|]. repeat constructor. lia.
  - destruct (IH (Z.min a x)) as [Hin Hall].
    apply Forall_cons in Hall as [Hhd Hall]. split.
    + apply elem_of_cons in Hin as [Heq|Hin].
      * rewrite Heq. destruct (Z.min_spec a x) as [[_ ->]|[_ ->]].
        -- apply list_elem_of_here.
        -- apply list_elem_of_further, list_elem_of_here.
      * by do 2 apply list_elem_of_further.
    + repeat constructor; [lia|lia|done].
Qed.

Lemma foldl_max_spec (a : Z) (l : list Z) :
  foldl Z.max a l ∈ a :: l ∧ Forall (λ x, x <= foldl Z.max a l) (a :: l).
Proof.
  revert a. induction l as [|x l IH]; intros a; simpl.
  - split; [apply list_elem_of_here|]. repeat constructor. lia.
  - destruct (IH (Z.max a x)) as [Hin Hall].
    apply Forall_cons in Hall as [Hhd Hall]. split.
    + apply elem_of_cons in Hin as [Heq|Hin].
      * rewrite Heq. destruct (Z.max_spec a x) as [[_ ->]|[_ ->]].
        -- apply list_elem_of_further, list_elem_of_here.
        -- apply list_elem_of_here.
      * by do 2 apply list_elem_of_further.
    + repeat constructor; [lia|lia|done].
Qed.

Lemma foldl_add_bounds (lo hi a : Z) (l : list Z) :
  Forall (λ x, lo <= x <= hi) l →
  a + lo * Z.of_nat (length l) <= foldl Z.add a l <= a + hi * Z.of_nat (length l).
Proof.
  intros Hall. revert a. induction Hall as [|x l Hx Hall IH]; intros a; simpl.
  - lia.
  - specialize (IH (a + x)). nia.
Qed.

Lemma simulate_games_valid shuffles nrows ncols vb games res :
  (∀ i, is_shuffle (shuffles i)) → valid_dims nrows ncols →
  ∃ ms, simulate_games shuffles nrows ncols vb games res = Ok (res ++ ms)
      ∧ length ms = length games
      ∧ Forall (λ m, 0 <= m <= (nrows * ncols) `div` 2) ms.
Proof.
  intros Hsh Hdims. revert res. induction games as [|i games IH]; intros res; simpl.
  - exists []. by rewrite app_nil_r.
  - destruct (play_game_valid (shuffles i) nrows ncols vb (Hsh i) Hdims)
      as (s & t & _ & Hgame & _ & Hm & _).
    rewrite Hgame. simpl. destruct (IH (res ++ [moves s])) as (ms & Hms & Hlen & Hall).
    exists (moves s :: ms). rewrite Hms, <- app_assoc. simpl.
    split_and!; [done|by rewrite Hlen|by constructor].
Qed.

Lemma run_simulations_valid shuffles nrows ncols num_games vb :
  (∀ i, is_shuffle (shuffles i)) → valid_dims nrows ncols → 0 < num_games →
  ∃ sm, run_simulations shuffles nrows ncols num_games vb = inr sm
      ∧ num_simulations sm = num_games
      ∧ len_results sm = num_games
      ∧ Z.of_nat (length (results sm)) = num_games
      ∧ Forall (λ m, 0 <= m <= (nrows * ncols) `div` 2) (results sm)
      ∧ min_results sm ∈ results sm ∧ max_results sm ∈ results sm
      ∧ Forall (λ m, min_results sm <= m <= max_results sm) (results sm)
      ∧ min_results sm * num_games <= sum_results sm <= max_results sm * num_games
      ∧ pairs_shown sm = (nrows * ncols) `div` 2.
Proof.
  intros Hsh Hdims Hn. unfold run_simulations.
  destruct (simulate_games_valid shuffles nrows ncols vb (seqZ 0 num_games) [] Hsh Hdims)
    as (ms & -> & Hlen & Hall).
  rewrite length_seqZ in Hlen. rewrite app_nil_l.
  destruct ms as [|r rest]; [simpl in Hlen; lia|].
  destruct (foldl_min_spec r rest) as [Hmin_in Hmin].
  destruct (foldl_max_spec r rest) as [Hmax_in Hmax].
  assert (Forall (λ m, foldl Z.min r rest <= m <= foldl Z.max r rest) (r :: rest)) as Hboth.
  { apply Forall_forall. intros x Hx.
    pose proof (proj1 (Forall_forall _ _) Hmin x Hx) as H1.
    pose proof (proj1 (Forall_forall _ _) Hmax x Hx) as H2.
    simpl in H1, H2. lia. }
  eexists. split; [reflexivity|]. cbn [num_simulations len_results results
    min_results max_results sum_results pairs_shown].
  split_and!; try done.
  - lia.
  - lia.
  - pose proof (foldl_add_bounds _ _ 0 _ Hboth) as Hsum.
    replace (Z.of_nat (length (r :: rest))) with num_games in Hsum by lia. lia.
  - pose proof (foldl_add_bounds _ _ 0 _ Hboth) as Hsum.
    replace (Z.of_nat (length (r :: rest))) with num_games in Hsum by lia. lia.
Qed.

(** X17.  On a valid board with at least one game, and whatever the
    shuffles, [run_simulations] plays [num_games] games and reports their
    wrong-guess counts: each between 0 and the number of pairs, the
    minimum and the maximum taken among them, and their sum between
    [num_games] times the minimum and [num_games] times the maximum. *)
Theorem run_simulations_summary shuffles nrows ncols num_games vb :
  (∀ i, is_shuffle (shuffles i)) → valid_dims nrows ncols → 0 < num_games →
  ∃ sm, run_simulations shuffles nrows ncols num_games vb = inr sm
      ∧ num_simulations sm = num_games
      ∧ len_results sm = num_games
      ∧ Z.of_nat (length (results sm)) = num_games
      ∧ Forall (λ m, 0 <= m <= (nrows * ncols) `div` 2) (results sm)
      ∧ min_results sm ∈ results sm ∧ max_results sm ∈ results sm
      ∧ Forall (λ m, min_results sm <= m <= max_results sm) (results sm)
      ∧ min_results sm * num_games <= sum_results sm <= max_results sm * num_games
      ∧ pairs_shown sm = (nrows * ncols) `div` 2.
Proof. apply run_simulations_valid. Qed.

Lemma run_simulations_summary_witness :
  ∃ sm, run_simulations (λ _, keep_order) 2 2 3 false = inr sm
      ∧ results sm = [2; 2; 2] ∧ min_results sm = 2 ∧ sum_results sm = 6.
Proof.
  destruct (run_simulations_summary (λ _, keep_order) 2 2 3 false)
    as (sm & Hrun & _).
  - intros i l. reflexivity.
  - unfold valid_dims. split; [lia|]. split; [lia|reflexivity].
  - lia.
  - exists sm. split; [exact Hrun|].
    vm_compute in Hrun. injection Hrun as <-. repeat split.
Defined.

(** X18.  How [run_simulations] fails.  With [num_games] zero or negative
    no game is played and the average divides by zero, whatever the board;
    with at least one game on a board of positive dimensions and an odd
    number of cells, the first game raises [IndexError]. *)
Theorem run_simulations_fails shuffles nrows ncols num_games vb :
  (num_games <= 0 →
     run_simulations shuffles nrows ncols num_games vb = inl ZeroDivisionError)
  ∧ ((∀ i, is_shuffle (shuffles i)) → 0 < nrows → 0 < ncols →
     Z.odd (nrows * ncols) = true → 0 < num_games →
     run_simulations shuffles nrows ncols num_games vb
     = inl (GameRaised IndexError)).
Proof.
  split.
  - intros Hn. unfold run_simulations. by rewrite seqZ_nil.
  - intros Hsh Hr Hc Hodd Hn. unfold run_simulations.
    rewrite seqZ_cons by done. simpl. unfold play_game.
    rewrite setup_board_odd by (done || lia). done.
Qed.

Lemma run_simulations_fails_witness :
  run_simulations (λ _, keep_order) 4 4 0 false = inl ZeroDivisionError
  ∧ run_simulations (λ _, keep_order) 3 3 10 false = inl (GameRaised IndexError).
Proof.
  destruct (run_simulations_fails (λ _, keep_order) 4 4 0 false) as [Hzero _].
  destruct (run_simulations_fails (λ _, keep_order) 3 3 10 false) as [_ Hodd].
  split.
  - apply Hzero. lia.
  - apply Hodd; [intros i l; reflexivity|lia|lia|reflexivity|lia].
Defined.

(** X19.  The five board sizes of the [__main__] block all have an even
    number of cells, so whatever the shuffles the driver runs through without
    an exception and gets five summaries of 100000 games, each with its
    wrong-guess counts between 0 and the pairs of its board. *)
Theorem main_runs_through shuffles :
  (∀ b i, is_shuffle (shuffles b i)) →
  ∃ sms, main shuffles = inr sms
       ∧ Forall2 (λ sm '(nrows, ncols),
                    num_simulations sm = 100000
                    ∧ pairs_shown sm = (nrows * ncols) `div` 2
                    ∧ 0 <= min_results sm
                    ∧ max_results sm <= (nrows * ncols) `div` 2)
                 sms board_sizes.
Proof.
  intros Hsh. unfold main, board_sizes.
  assert (∀ b nrows ncols, valid_dims nrows ncols →
            ∃ sm, run_simulations (shuffles b) nrows ncols 100000 false = inr sm
                ∧ num_simulations sm = 100000
                ∧ pairs_shown sm = (nrows * ncols) `div` 2
                ∧ 0 <= min_results sm
                ∧ max_results sm <= (nrows * ncols) `div` 2) as Hboard.
  { intros b nrows ncols Hdims.
    destruct (run_simulations_valid (shuffles b) nrows ncols 100000 false (Hsh b) Hdims)
      as (sm & Hrun & Hnum & _ & _ & Hall & Hmin & Hmax & _ & _ & Hpairs); [lia|].
    exists sm. split_and!; try done.
    - apply (proj1 (Forall_forall _ _) Hall _ Hmin).
    - apply (proj1 (Forall_forall _ _) Hall _ Hmax). }
  assert (∀ r c, 0 < r → 0 < c → Z.even (r * c) = true → valid_dims r c) as Hv
    by (intros r c ???; done).
  destruct (Hboard 0%nat 4 3) as (sm1 & H1 & F1); [by apply Hv|].
  destruct (Hboard 1%nat 4 4) as (sm2 & H2 & F2); [by apply Hv|].
  destruct (Hboard 2%nat 5 4) as (sm3 & H3 & F3); [by apply Hv|].
  destruct (Hboard 3%nat 6 5) as (sm4 & H4 & F4); [by apply Hv|].
  destruct (Hboard 4%nat 6 6) as (sm5 & H5 & F5); [by apply Hv|].
  exists [sm1; sm2; sm3; sm4; sm5]. split.
  - cbn [main_loop]. rewrite H1, H2, H3, H4, H5. reflexivity.
  - repeat (constructor; [assumption|]). constructor.
Qed.

Lemma main_runs_through_witness :
  ∃ sms, main (λ _ _, keep_order) = inr sms ∧ length sms = 5%nat.
Proof.
  destruct (main_runs_through (λ _ _, keep_order)) as (sms & Hmain & Hall).
  - intros b i l. reflexivity.
  - exists sms. split; [exact Hmain|].
    rewrite (Forall2_length _ _ _ Hall). reflexivity.
Defined.
